(** * go-turing: a shallow embedding of the engine and of the .tur reader

    The development follows the two Go packages of the repository:
    - [turing]     : [Program.Validate], [NewMachine], [Machine.ExecCtx],
                     [Machine.step] and the tape helpers;
    - [filereader] : [ParseTransition] and [ReadCtx].

    Conventions of the embedding
    - a Go [string] is a sequence of bytes: Rocq's [string] (a list of
      8-bit [ascii]);
    - a [rune] (int32) and an [int] are [Z]; [uint] is [N]; the 64-bit
      wrap-around of [m.carriage += int(d)] and of [m.steps++] is written
      out ([wrap_int], [wrap_uint]);
    - a Go map used as a value that is only read is a [gmap]; the tapes,
      which are shared and mutated through references, live in a heap of
      maps addressed by locations;
    - a [range] over a Go map visits the entries in an unspecified order:
      every function that ranges over a map takes the order it is given
      as an argument, and the theorems quantify over all orders. *)

From Stdlib Require Import ZArith NArith Ascii String List.
From stdpp Require Import base decidable option numbers list strings gmap fin_maps fin_sets.

Local Open Scope Z_scope.

(* ===================================================================== *)
(** * Go primitives *)
(* ===================================================================== *)

Abbreviation rune := Z (only parsing).
Abbreviation loc := positive (only parsing).

(** The rune of a one-byte character literal, e.g. ['1'] or [' ']. *)
Definition rune_of (c : ascii) : rune := Z.of_N (N_of_ascii c).

(** The byte value of a string element. *)
Definition byte_of (c : ascii) : Z := Z.of_N (N_of_ascii c).

(** [int] arithmetic wraps around (two's complement, 64 bits). *)
Definition wrap_int (z : Z) : Z := (z + 2 ^ 63) mod 2 ^ 64 - 2 ^ 63.

(** [uint] arithmetic wraps around modulo 2^64. *)
Definition wrap_uint (n : N) : N := (n mod 2 ^ 64)%N.

(** The error values of the two packages, the cancellation error of the
    context and the wrapped error of the scanner. *)
Inductive error : Type :=
| ErrStartStateEmpty
| ErrTerminalStateEmpty
| ErrInvalidMaxTapeLength
| ErrInvalidMoveDirection
| ErrStateNotFound
| ErrTransitionNotFound
| ErrInfiniteLoop
| ErrStepsExceeded
| ErrUnexpectedSymbol
| ErrTapeOver
| ErrParseTransition
| ErrNoTransitions
| ErrCancelled
| ErrReadProgram.

#[global] Instance error_eq_dec : EqDecision error.
Proof. solve_decision. Defined.

(** Outcome of a call that returns [(T, error)]. *)
Inductive result (T : Type) : Type :=
| Ok (v : T)
| Err (e : error).
Arguments Ok {T} v.
Arguments Err {T} e.

Module utf8.

Definition RuneError : rune := 65533.

(** Continuation byte: [locb <= b <= hicb]. *)
Definition locb : Z := 128.
Definition hicb : Z := 191.

(** The size of the encoding announced by the first byte, and the range
    accepted for the second byte (the tables [first] and [acceptRanges]).
    [None] is an invalid first byte ([xx]); size 1 is ASCII ([as]). *)
Definition first (b : Z) : option (nat * (Z * Z)) :=
  if b <? 128 then Some (1%nat, (0, 0))
  else if b <? 194 then None
  else if b <? 224 then Some (2%nat, (locb, hicb))
  else if b =? 224 then Some (3%nat, (160, hicb))
  else if b <? 237 then Some (3%nat, (locb, hicb))
  else if b =? 237 then Some (3%nat, (locb, 159))
  else if b <? 240 then Some (3%nat, (locb, hicb))
  else if b =? 240 then Some (4%nat, (144, hicb))
  else if b <? 244 then Some (4%nat, (locb, hicb))
  else if b =? 244 then Some (4%nat, (locb, 143))
  else None.

Definition in_range (lo hi b : Z) : bool := (lo <=? b) && (b <=? hi).

(** [utf8.DecodeRuneInString]: the first rune of [s] and its width in
    bytes; [(RuneError, 0)] on the empty string and [(RuneError, 1)] on an
    invalid or truncated encoding. *)
Definition DecodeRuneInString (s : string) : rune * nat :=
  match s with
  | EmptyString => (RuneError, 0%nat)
  | String c0 rest =>
    let s0 := byte_of c0 in
    match first s0 with
    | None => (RuneError, 1%nat)
    | Some (1%nat, _) => (s0, 1%nat)
    | Some (sz, (lo, hi)) =>
      if (String.length s <? sz)%nat then (RuneError, 1%nat) else
      match rest with
      | EmptyString => (RuneError, 1%nat)
      | String c1 rest1 =>
        let s1 := byte_of c1 in
        if negb (in_range lo hi s1) then (RuneError, 1%nat) else
        if (sz <=? 2)%nat then
          (Z.lor (Z.shiftl (Z.land s0 31) 6) (Z.land s1 63), 2%nat)
        else
        match rest1 with
        | EmptyString => (RuneError, 1%nat)
        | String c2 rest2 =>
          let s2 := byte_of c2 in
          if negb (in_range locb hicb s2) then (RuneError, 1%nat) else
          if (sz <=? 3)%nat then
            (Z.lor (Z.lor (Z.shiftl (Z.land s0 15) 12)
                          (Z.shiftl (Z.land s1 63) 6))
                   (Z.land s2 63), 3%nat)
          else
          match rest2 with
          | EmptyString => (RuneError, 1%nat)
          | String c3 _ =>
            let s3 := byte_of c3 in
            if negb (in_range locb hicb s3) then (RuneError, 1%nat) else
            (Z.lor (Z.lor (Z.lor (Z.shiftl (Z.land s0 7) 18)
                                 (Z.shiftl (Z.land s1 63) 12))
                          (Z.shiftl (Z.land s2 63) 6))
                   (Z.land s3 63), 4%nat)
          end
        end
      end
    end
  end.

End utf8.

(** Drop the first [n] bytes of a string ([s[n:]]). *)
Fixpoint string_drop (n : nat) (s : string) : string :=
  match n, s with
  | O, _ => s
  | S n', String _ rest => string_drop n' rest
  | S _, EmptyString => EmptyString
  end.

(** [for _, r := range s]: the runes of a string, decoded one after the
    other; the fuel is the number of bytes left, which bounds the number
    of runes. *)
Fixpoint range_runes (fuel : nat) (s : string) : list rune :=
  match fuel with
  | O => []
  | S fuel' =>
    match s with
    | EmptyString => []
    | _ =>
      let '(r, w) := utf8.DecodeRuneInString s in
      r :: range_runes fuel' (string_drop w s)
    end
  end.

Definition runes (s : string) : list rune := range_runes (String.length s) s.

(* ===================================================================== *)
(** * Package turing *)
(* ===================================================================== *)

Module turing.

(** [type Direction int], with the three named values. *)
Abbreviation Direction := Z (only parsing).
Definition Left : Direction := -1.
Definition Right : Direction := 1.
Definition Stay : Direction := 0.

Record Transition : Type := mkTransition
  { NextState : string; Move : Direction; Write : rune }.

#[global] Instance Transition_eq_dec : EqDecision Transition.
Proof. solve_decision. Defined.

(** [type Program map[string]map[rune]Transition] *)
Abbreviation Program := (gmap string (gmap Z Transition)) (only parsing).

(** A tape is a [map[int]rune]; tapes are reference values, kept in a heap. *)
Abbreviation Tape := (gmap Z Z) (only parsing).
Abbreviation Heap := (gmap positive (gmap Z Z)) (only parsing).

(** The blank symbol [' ']. *)
Definition blank : rune := 32.

(** ** Program.Validate *)

(** The body of the inner loop of [Validate] for one entry
    [tp[state][symbol] = transition]: [None] is "go on with the next
    entry" (both the [continue] and the fall-through), [Some e] is
    [return e]. *)
Definition Validate_entry (tp : Program) (alphabet : gset Z)
    (terminalState : string) (transition : Transition) : option error :=
  if negb (bool_decide (Move transition = Left))
     && negb (bool_decide (Move transition = Right))
     && negb (bool_decide (Move transition = Stay))
  then Some ErrInvalidMoveDirection
  else if negb (bool_decide (Write transition ∈ alphabet))
  then Some ErrUnexpectedSymbol
  else if bool_decide (NextState transition = terminalState)
  then None
  else match tp !! NextState transition with
       | None => Some ErrStateNotFound
       | Some _ => None
       end.

(** The inner loop, over the entries of one state in the order [range]
    yields them. *)
Fixpoint Validate_row (tp : Program) (alphabet : gset Z)
    (terminalState : string) (row : list (Z * Transition)) : option error :=
  match row with
  | [] => None
  | (_, transition) :: row' =>
    match Validate_entry tp alphabet terminalState transition with
    | Some e => Some e
    | None => Validate_row tp alphabet terminalState row'
    end
  end.

(** [Validate]: the outer loop. [order] is the order in which the two
    nested [range] loops yield the states and, for each state, its
    entries. *)
Fixpoint Validate (tp : Program) (order : list (string * list (Z * Transition)))
    (alphabet : gset Z) (terminalState : string) : option error :=
  match order with
  | [] => None
  | (_, row) :: order' =>
    match Validate_row tp alphabet terminalState row with
    | Some e => Some e
    | None => Validate tp order' alphabet terminalState
    end
  end.

(** [order] is an order in which [range] may walk the program: every state
    once, and with it every entry of its row once. *)
Definition ranges_over (tp : Program)
    (order : list (string * list (Z * Transition))) : Prop :=
  order.*1 ≡ₚ (map_to_list tp).*1 ∧
  ∀ q row, (q, row) ∈ order →
    ∃ m : gmap Z Transition, tp !! q = Some m ∧ row ≡ₚ map_to_list m.

(** One such order. *)
Definition range_order (tp : Program) : list (string * list (Z * Transition)) :=
  (λ qm : string * gmap Z Transition, (qm.1, map_to_list qm.2)) <$> map_to_list tp.

(** ** Machine *)

Record Machine : Type := mkMachine
  { carriage : Z;
    tape : positive;
    state : string;
    startState : string;
    terminalState : string;
    alphabet : gset Z;
    program : gmap string (gmap Z Transition);
    steps : N;
    maxTapeLength : N;
    maxSteps : N }.

Definition set_carriage (c : Z) (m : Machine) : Machine :=
  mkMachine c (tape m) (state m) (startState m) (terminalState m)
            (alphabet m) (program m) (steps m) (maxTapeLength m) (maxSteps m).
Definition set_tape (l : positive) (m : Machine) : Machine :=
  mkMachine (carriage m) l (state m) (startState m) (terminalState m)
            (alphabet m) (program m) (steps m) (maxTapeLength m) (maxSteps m).
Definition set_state (q : string) (m : Machine) : Machine :=
  mkMachine (carriage m) (tape m) q (startState m) (terminalState m)
            (alphabet m) (program m) (steps m) (maxTapeLength m) (maxSteps m).
Definition set_steps (n : N) (m : Machine) : Machine :=
  mkMachine (carriage m) (tape m) (state m) (startState m) (terminalState m)
            (alphabet m) (program m) n (maxTapeLength m) (maxSteps m).

(** The map a location refers to; a location that was never allocated
    reads as the nil map, which has no entry. *)
Definition deref (h : Heap) (l : positive) : gmap Z Z := default ∅ (h !! l).

(** [make(map[int]rune)]: a location that is not in use. *)
Definition alloc (h : Heap) : positive := fresh (dom h).

(** [NewMachine]. The alphabet is the set of runes of the string, plus the
    blank; the machine gets an empty tape of its own. [order] is the order
    in which [Validate] walks the program. *)
Definition NewMachine (order : list (string * list (Z * Transition)))
    (alphabet : string) (startState terminalState : string)
    (program : Program) (maxTapeLength maxSteps : N) (h : Heap)
  : result Machine * Heap :=
  let a : gset Z := list_to_set (runes alphabet) in
  let a := {[ blank ]} ∪ a in
  if bool_decide (startState = EmptyString) then (Err ErrStartStateEmpty, h)
  else if bool_decide (terminalState = EmptyString) then (Err ErrTerminalStateEmpty, h)
  else if bool_decide (maxTapeLength = 0%N) then (Err ErrInvalidMaxTapeLength, h)
  else match Validate program order a terminalState with
       | Some e => (Err e, h)
       | None =>
         let l := alloc h in
         (Ok (mkMachine 0 l EmptyString startState terminalState a program
                        0%N maxTapeLength maxSteps),
          <[ l := ∅ ]> h)
       end.

(** [Machine.Copy]: a new machine value that shares the tape. *)
Definition Copy (m : Machine) : Machine :=
  mkMachine (carriage m) (tape m) (state m) (startState m) (terminalState m)
            (alphabet m) (program m) (steps m) (maxTapeLength m) (maxSteps m).

(** [read]: the symbol under the carriage, [' '] when the cell is absent. *)
Definition read (m : Machine) (h : Heap) : rune :=
  match deref h (tape m) !! carriage m with
  | Some sym => sym
  | None => blank
  end.

(** [write]: [m.tape[m.carriage] = sym], an update of the shared map. *)
Definition write (sym : rune) (m : Machine) (h : Heap) : Heap :=
  <[ tape m := <[ carriage m := sym ]> (deref h (tape m)) ]> h.

(** [move]: [m.carriage += int(d)]. *)
Definition move (d : Direction) (m : Machine) : Machine :=
  set_carriage (wrap_int (carriage m + d)) m.

(** [m.program[m.state][sym]]: indexing a missing row yields the nil map,
    which has no entry. *)
Definition lookup_transition (m : Machine) (sym : rune) : option Transition :=
  match program m !! state m with
  | Some row => row !! sym
  | None => None
  end.

(** [step] returns [(bool, error)] and updates the machine and its tape. *)
Definition step (m : Machine) (h : Heap) : (bool * option error) * Machine * Heap :=
  if bool_decide (state m = terminalState m) then ((false, None), m, h) else
  let sym := read m h in
  if negb (bool_decide (sym ∈ alphabet m))
  then ((false, Some ErrUnexpectedSymbol), m, h) else
  match lookup_transition m sym with
  | None => ((false, Some ErrTransitionNotFound), m, h)
  | Some transition =>
    if bool_decide (Move transition = Stay)
       && bool_decide (NextState transition = state m)
       && bool_decide (Write transition = sym)
    then ((false, Some ErrInfiniteLoop), m, h) else
    let h := write (Write transition) m h in
    let m := move (Move transition) m in
    let m := set_state (NextState transition) m in
    let m := set_steps (wrap_uint (steps m + 1)) m in
    if (maxTapeLength m <=? N.of_nat (size (deref h (tape m))))%N
    then ((false, Some ErrTapeOver), m, h)
    else if (0 <? maxSteps m)%N && (maxSteps m <=? steps m)%N
    then ((false, Some ErrStepsExceeded), m, h)
    else ((true, None), m, h)
  end.

(** The copy loop of [ExecCtx]: [for i, symbol := range input { tape[i] =
    symbol }] into an empty map. The keys are distinct, so the order of
    the walk does not show in the result. *)
Definition copy_tape (input : gmap Z Z) : gmap Z Z :=
  map_fold (λ i symbol tape, <[ i := symbol ]> tape) ∅ input.

(** The [for ok { ... }] loop of [ExecCtx]. [ctx k] tells whether the
    context is found cancelled at the [k]-th check. The loop need not
    terminate, so it runs on fuel: [None] is "still running". On return
    the first component is the tape handed back to the caller ([None] for
    [nil]) and the second the error. *)
Fixpoint exec_loop (fuel : nat) (ctx : nat → bool) (k : nat)
    (m : Machine) (h : Heap)
  : option ((option positive * option error) * Machine * Heap) :=
  match fuel with
  | O => None
  | S fuel' =>
    if ctx k then Some ((None, Some ErrCancelled), m, h) else
    let '((ok, err), m', h') := step m h in
    match err with
    | Some e => Some ((None, Some e), m', h')
    | None =>
      if ok then exec_loop fuel' ctx (S k) m' h'
      else Some ((Some (tape m'), None), m', h')
    end
  end.

(** [ExecCtx]: [input] is the caller's map (a reference). *)
Definition ExecCtx (fuel : nat) (ctx : nat → bool) (m : Machine) (h : Heap)
    (carriage : Z) (input : positive)
  : option ((option positive * option error) * Machine * Heap) :=
  let m := set_carriage carriage m in
  let m := set_state (startState m) m in
  let m := set_steps 0%N m in
  let tape := alloc h in
  let h := <[ tape := copy_tape (deref h input) ]> h in
  let m := set_tape tape m in
  exec_loop fuel ctx 0 m h.

(** [context.Background()] is never cancelled. *)
Definition Background : nat → bool := λ _, false.

(** [Exec] *)
Definition Exec (fuel : nat) (m : Machine) (h : Heap) (carriage : Z)
    (input : positive) :=
  ExecCtx fuel Background m h carriage input.

End turing.

(* ===================================================================== *)
(** * Package filereader *)
(* ===================================================================== *)

Module filereader.
Import turing.

(** [strings.ContainsRune(s, r)] for a one-byte rune [r]. *)
Fixpoint ContainsRune (s : string) (r : ascii) : bool :=
  match s with
  | EmptyString => false
  | String c rest => bool_decide (c = r) || ContainsRune rest r
  end.

(** [strings.Split(s, string(sep))] for a one-byte separator: the pieces
    between the separators, one more than there are separators. *)
Fixpoint Split (s : string) (sep : ascii) : list string :=
  match s with
  | EmptyString => [EmptyString]
  | String c rest =>
    if bool_decide (c = sep) then EmptyString :: Split rest sep
    else match Split rest sep with
         | piece :: pieces => String c piece :: pieces
         | [] => [String c EmptyString]
         end
  end.

(** [strings.Join(elems, " ")] *)
Fixpoint Join (elems : list string) : string :=
  match elems with
  | [] => EmptyString
  | [e] => e
  | e :: rest => e ++ String " " (Join rest)
  end.

(** The literal [directionTable] of [ParseTransition]. *)
Definition directionTable : list (ascii * Z) :=
  [(">"%char, Right); ("<"%char, Left); ("."%char, Stay)].

(** [ParseTransition]. The function ranges over [directionTable], a map:
    [order] is the order in which this call meets the three separators. *)
Fixpoint ParseTransition (order : list (ascii * Z)) (field : string)
  : result Transition :=
  match order with
  | [] => Err ErrParseTransition
  | (sep, dir) :: order' =>
    if ContainsRune field sep then
      match Split field sep with
      | [f0; f1] =>
        if bool_decide (f0 = EmptyString) || bool_decide (f1 = EmptyString)
        then Err ErrParseTransition
        else
          let write := (utf8.DecodeRuneInString f0).1 in
          let write := if write =? rune_of "_" then rune_of " " else write in
          Ok {| NextState := String "Q" f1; Move := dir; Write := write |}
      | _ => Err ErrParseTransition
      end
    else ParseTransition order' field
  end.

(** [regexp.MustCompile(`Q\d+`).MatchString(s)]: some [Q] of [s] is
    followed by a decimal digit. *)
Definition is_digit (c : ascii) : bool :=
  (48 <=? byte_of c) && (byte_of c <=? 57).

Fixpoint statePattern_MatchString (s : string) : bool :=
  match s with
  | EmptyString => false
  | String c rest =>
    match rest with
    | EmptyString => false
    | String d _ =>
      (bool_decide (c = "Q"%char) && is_digit d) || statePattern_MatchString rest
    end
  end.

(** ** bufio.Scanner with the default split function ScanLines *)

Definition MaxScanTokenSize : N := 65536%N.

(** [dropCR]: a line loses one trailing carriage return. *)
Fixpoint dropCR (s : string) : string :=
  match s with
  | EmptyString => EmptyString
  | String c EmptyString => if bool_decide (c = "013"%char) then EmptyString else s
  | String c rest => String c (dropCR rest)
  end.

(** The raw lines of the text: the pieces between line feeds; what follows
    the last line feed is a line only when it is not empty. *)
Definition raw_lines (text : string) : list string :=
  let pieces := Split text "010"%char in
  match last pieces with
  | Some EmptyString => removelast pieces
  | _ => pieces
  end.

(** The scanner hands out the lines up to the first one that does not fit
    its buffer; [scanner.Err()] is then non-nil. *)
Fixpoint scan (raw : list string) : list string * bool :=
  match raw with
  | [] => ([], false)
  | line :: raw' =>
    if (MaxScanTokenSize <=? N.of_nat (String.length line))%N then ([], true)
    else let '(lines, err) := scan raw' in (dropCR line :: lines, err)
  end.

(** ** ReadCtx *)

(** What the body of a loop does to the enclosing function. *)
Inductive flow (S : Type) : Type :=
| Next (s : S)                              (* go on with the loop *)
| Return (r : result (gmap string (gmap Z Transition)))
| Panic.                                    (* index out of range *)
Arguments Next {S} s.
Arguments Return {S} r.
Arguments Panic {S}.

(** The inner loop [for i := 1; i < len(fields); i++] over [fields[1:]];
    [ord i] is the order of the [ParseTransition] call for field [i]. *)
Fixpoint read_row (ord : nat → list (ascii * Z)) (states : list string)
    (symbol : rune) (fields : list string) (i stateIndex : nat)
    (program : gmap string (gmap Z Transition))
  : flow (gmap string (gmap Z Transition)) :=
  match fields with
  | [] => Next program
  | field :: fields' =>
    if bool_decide (field = EmptyString)
    then read_row ord states symbol fields' (S i) (S stateIndex) program
    else
      match ParseTransition (ord i) field with
      | Err e => Return (Err e)
      | Ok transition =>
        match states !! stateIndex with
        | None => Panic
        | Some st =>
          let row := default ∅ (program !! st) in
          let program := <[ st := <[ symbol := transition ]> row ]> program in
          read_row ord states symbol fields' (S i) (S stateIndex) program
        end
      end
  end.

(** The loop [for scanner.Scan()]; [ctx k] tells whether the context is
    found cancelled at line [k], [ord k i] is the order of the
    [ParseTransition] call for field [i] of line [k]. *)
Fixpoint read_lines (ord : nat → nat → list (ascii * Z)) (ctx : nat → bool)
    (k : nat) (lines : list string) (states : list string) (inScope : bool)
    (program : gmap string (gmap Z Transition))
  : flow (gmap string (gmap Z Transition)) :=
  match lines with
  | [] => Next program
  | line :: lines' =>
    if ctx k then Return (Err ErrCancelled) else
    match Split line "009"%char with
    | [] => read_lines ord ctx (S k) lines' states inScope program
    | f0 :: fields1 =>
      if negb inScope then
        if (1 <? length (f0 :: fields1))%nat
           && statePattern_MatchString (Join fields1)
        then read_lines ord ctx (S k) lines' fields1 true program
        else read_lines ord ctx (S k) lines' states inScope program
      else if bool_decide (f0 = EmptyString)
      then read_lines ord ctx (S k) lines' states inScope program
      else
        let symbol := (utf8.DecodeRuneInString f0).1 in
        match read_row (ord k) states symbol fields1 1 0 program with
        | Next program' => read_lines ord ctx (S k) lines' states inScope program'
        | Return r => Return r
        | Panic => Panic
        end
    end
  end.

(** [ReadCtx] on a reader that delivers [text] without an I/O error.
    [None] is a run-time panic. *)
Definition ReadCtx (ord : nat → nat → list (ascii * Z)) (ctx : nat → bool)
    (text : string) : option (result (gmap string (gmap Z Transition))) :=
  let '(lines, scanErr) := scan (raw_lines text) in
  match read_lines ord ctx 0 lines [] false ∅ with
  | Panic => None
  | Return r => Some r
  | Next program =>
    if scanErr then Some (Err ErrReadProgram)
    else if bool_decide (size program = 0%nat) then Some (Err ErrNoTransitions)
    else Some (Ok program)
  end.

(** Every call of [ParseTransition] walks the whole [directionTable]. *)
Definition ranges_table (ord : nat → nat → list (ascii * Z)) : Prop :=
  ∀ k i, ord k i ≡ₚ directionTable.

End filereader.

(* ===================================================================== *)
(** * Notions used in the statements *)
(* ===================================================================== *)

Import turing filereader.

(** What [step] does to the machine when it applies a transition: move the
    carriage, change the state, count the step. *)
Definition apply_transition (t : Transition) (m : Machine) : Machine :=
  set_steps (wrap_uint (steps m + 1))
    (set_state (NextState t) (move (Move t) m)).

(** [step] got as far as the table and found [t] for the symbol it read. *)
Definition looked_up (m : Machine) (h : gmap positive (gmap Z Z)) (t : Transition) : Prop :=
  state m ≠ terminalState m ∧ read m h ∈ alphabet m ∧
  lookup_transition m (read m h) = Some t.

(** [t] leaves the configuration as it is. *)
Definition no_op (m : Machine) (h : gmap positive (gmap Z Z)) (t : Transition) : Prop :=
  Write t = read m h ∧ Move t = Stay ∧ NextState t = state m.

(** The two limit guards at the end of [step]. *)
Definition verdict (m : Machine) (h : gmap positive (gmap Z Z)) : bool * option error :=
  if (maxTapeLength m <=? N.of_nat (size (deref h (tape m))))%N
  then (false, Some ErrTapeOver)
  else if (0 <? maxSteps m)%N && (maxSteps m <=? steps m)%N
  then (false, Some ErrStepsExceeded)
  else (true, None).

(** The five ways through [step]. *)
Inductive step_case (m : Machine) (h : gmap positive (gmap Z Z))
  : (bool * option error) * Machine * gmap positive (gmap Z Z) → Prop :=
| step_halt :
    state m = terminalState m → step_case m h ((false, None), m, h)
| step_unexpected :
    state m ≠ terminalState m → read m h ∉ alphabet m →
    step_case m h ((false, Some ErrUnexpectedSymbol), m, h)
| step_not_found :
    state m ≠ terminalState m → read m h ∈ alphabet m →
    lookup_transition m (read m h) = None →
    step_case m h ((false, Some ErrTransitionNotFound), m, h)
| step_loop t :
    looked_up m h t → no_op m h t →
    step_case m h ((false, Some ErrInfiniteLoop), m, h)
| step_applied t :
    looked_up m h t → ¬ no_op m h t →
    step_case m h
      (verdict (apply_transition t m) (write (Write t) m h),
       apply_transition t m, write (Write t) m h).

(** How a run on a tape of its own, at location [l1] of the heap [h1],
    shows on the heap [h] where the same tape lives at [l]. *)
Definition relocate (l : positive) (h : gmap positive (gmap Z Z)) (l1 : positive)
    (out : (option positive * option error) * Machine * gmap positive (gmap Z Z))
  : (option positive * option error) * Machine * gmap positive (gmap Z Z) :=
  let '((res, err), m1, h1) := out in
  (((λ _, l) <$> res, err), set_tape l m1, <[ l := deref h1 l1 ]> h).

(** The machine [ExecCtx] starts its loop with. *)
Definition reset (m : Machine) (carriage : Z) (tape : positive) : Machine :=
  set_tape tape (set_steps 0%N (set_state (startState m) (set_carriage carriage m))).

(** The entries of the program in the order [Validate] meets them, and
    the errors the loop body raises on them. *)
Definition entries_of (order : list (string * list (Z * Transition)))
  : list (Z * Transition) := mjoin (order.*2).

Definition violations (tp : gmap string (gmap Z Transition)) (alphabet : gset Z)
    (terminalState : string) (row : list (Z * Transition)) : list error :=
  omap (λ e : Z * Transition, Validate_entry tp alphabet terminalState e.2) row.

(** [tp[q][sym] = t] *)
Definition entry (tp : gmap string (gmap Z Transition)) (q : string)
    (sym : Z) (t : Transition) : Prop :=
  ∃ row : gmap Z Transition, tp !! q = Some row ∧ row !! sym = Some t.

Definition valid_move (t : Transition) : Prop :=
  Move t = Left ∨ Move t = Right ∨ Move t = Stay.

(** The programs of the tests: the increment machine, the machine that
    goes left for ever, the one that stays where it is, and a machine that
    swings between two states without moving. *)
Definition increment : gmap string (gmap Z Transition) :=
  {[ "Q1"%string :=
       {[ rune_of " " := mkTransition "Q0" Stay (rune_of "1");
          rune_of "1" := mkTransition "Q1" Left (rune_of "1") ]} ]}.

Definition go_left : gmap string (gmap Z Transition) :=
  {[ "Q1"%string := {[ rune_of " " := mkTransition "Q1" Left (rune_of " ") ]} ]}.

Definition stay_put : gmap string (gmap Z Transition) :=
  {[ "Q1"%string := {[ rune_of " " := mkTransition "Q1" Stay (rune_of " ") ]} ]}.

Definition swing : gmap string (gmap Z Transition) :=
  {[ "Q1"%string := {[ rune_of " " := mkTransition "Q2" Stay (rune_of " ") ]};
     "Q2"%string := {[ rune_of " " := mkTransition "Q1" Stay (rune_of " ") ]} ]}.

(** A program of the validation test: its only entry leads to a state
    that has no row. *)
Definition dangling : gmap string (gmap Z Transition) :=
  {[ "Q1"%string := {[ rune_of " " := mkTransition "Q2" Stay (rune_of " ") ]} ]}.

(** [count] cells holding ['1'], from cell [lo] on. *)
Definition ones (lo : Z) (count : nat) : gmap Z Z :=
  list_to_map ((λ i : nat, (lo + Z.of_nat i, rune_of "1")) <$> seq 0 count).

(** The separators of [directionTable] that occur in a field. *)
Definition separators_in (field : string) : list (ascii * Z) :=
  filter (λ sd : ascii * Z, ContainsRune field sd.1 = true) directionTable.

(** The fields of the table rows, that is, the fields [ReadCtx] may hand
    to [ParseTransition]: the non-empty fields after the first one, in the
    lines after the header row whose first field is not empty. *)
Fixpoint table_fields (lines : list string) (inScope : bool) : list string :=
  match lines with
  | [] => []
  | line :: lines' =>
    match Split line "009"%char with
    | [] => table_fields lines' inScope
    | f0 :: fields1 =>
      if negb inScope then
        if (1 <? length (f0 :: fields1))%nat
           && statePattern_MatchString (Join fields1)
        then table_fields lines' true
        else table_fields lines' inScope
      else if bool_decide (f0 = EmptyString)
      then table_fields lines' inScope
      else filter (λ f, f ≠ EmptyString) fields1 ++ table_fields lines' inScope
    end
  end.

Definition tab : string := String "009" EmptyString.
Definition nl : string := String "010" EmptyString.

(** A header row with the single state Q1 and a row for the symbol ['1']
    with two transitions. *)
Definition text_long_row : string :=
  tab ++ "Q1" ++ nl ++ "1" ++ tab ++ "1>1" ++ tab ++ "1>1" ++ nl.

(** The grammar of a transition field in the words of the specification,
    [SYMBOL SEP DIGITS]: [SYMBOL] is a single character, [SEP] is one of
    ['>'], ['<'], ['.'], and [DIGITS] is a non-empty run of decimal
    digits. *)
Fixpoint all_digits (s : string) : bool :=
  match s with
  | EmptyString => true
  | String c rest => is_digit c && all_digits rest
  end.

Definition spec_transition_field (field : string) : bool :=
  let w := (utf8.DecodeRuneInString field).2 in
  match string_drop w field with
  | EmptyString => false
  | String sep digits =>
    (0 <? w)%nat
    && (bool_decide (sep = ">"%char) || bool_decide (sep = "<"%char)
        || bool_decide (sep = "."%char))
    && negb (bool_decide (digits = EmptyString))
    && all_digits digits
  end.

(** A header row with the single state Q1 and a row for the symbol ['.']:
    on ['.'], write ['.'], move right, go to Q1. *)
Definition text_dot_symbol : string :=
  tab ++ "Q1" ++ nl ++ "." ++ tab ++ ".>1" ++ nl.

(** The configuration of a machine: what [NewMachine] fixes and a run
    never changes. *)
Definition same_config (m1 m2 : Machine) : Prop :=
  startState m1 = startState m2 ∧ terminalState m1 = terminalState m2 ∧
  alphabet m1 = alphabet m2 ∧ program m1 = program m2 ∧
  maxTapeLength m1 = maxTapeLength m2 ∧ maxSteps m1 = maxSteps m2.

(** Every symbol on the tape belongs to the alphabet. *)
Definition over_alphabet (a : gset Z) (t : gmap Z Z) : Prop :=
  ∀ i sym, t !! i = Some sym → sym ∈ a.

(** Every transition of the program writes a symbol of the alphabet. *)
Definition writes_in_alphabet (m : Machine) : Prop :=
  ∀ q sym t, entry (program m) q sym t → Write t ∈ alphabet m.

(** The carriage is an [int]. *)
Definition is_int (z : Z) : Prop := - 2 ^ 63 ≤ z < 2 ^ 63.

(** The test by which [ReadCtx] takes a line for the header row: it has
    more than one tab-separated field and, after the first field, a [Q]
    followed by a digit. *)
Definition is_header (line : string) : bool :=
  match Split line "009"%char with
  | [] => false
  | f0 :: fields1 =>
    (1 <? length (f0 :: fields1))%nat && statePattern_MatchString (Join fields1)
  end.

(** What every transition out of [ParseTransition] looks like. *)
Definition parsed_transition (t : Transition) : Prop :=
  valid_move t ∧ Write t ≠ rune_of "_" ∧
  ∃ digits, digits ≠ EmptyString ∧ NextState t = String "Q" digits.

(** A program with no empty row and only such transitions. *)
Definition well_parsed (p : gmap string (gmap Z Transition)) : Prop :=
  ∀ q row, p !! q = Some row →
    row ≠ ∅ ∧ ∀ sym t, row !! sym = Some t → parsed_transition t.

(** No row of the table has more fields than the header row: [n] is the
    number of states the header row names. *)
Fixpoint rows_fit (lines : list string) (inScope : bool) (n : nat) : bool :=
  match lines with
  | [] => true
  | line :: lines' =>
    if negb inScope then
      if is_header line
      then rows_fit lines' true (length (Split line "009"%char) - 1)
      else rows_fit lines' false n
    else (length (Split line "009"%char) - 1 <=? n)%nat && rows_fit lines' true n
  end.

(** The addition machine and the multiplication machine of the tests, in
    the unary notation of the tests (the number n is n+1 ones). *)
Definition addition : gmap string (gmap Z Transition) :=
  {[ "Q1"%string :=
       {[ rune_of "1" := mkTransition "Q2" Right (rune_of " ") ]};
     "Q2"%string :=
       {[ rune_of " " := mkTransition "Q3" Left (rune_of " ");
          rune_of "1" := mkTransition "Q2" Right (rune_of "1");
          rune_of "+" := mkTransition "Q2" Right (rune_of "1") ]};
     "Q3"%string :=
       {[ rune_of "1" := mkTransition "Q0" Stay (rune_of " ") ]} ]}.

Definition multiplication : gmap string (gmap Z Transition) :=
  {[ "Q1"%string :=
       {[ rune_of "1" := mkTransition "Q2" Right (rune_of "*") ]};
     "Q2"%string :=
       {[ rune_of " " := mkTransition "Q3" Left (rune_of " ");
          rune_of "1" := mkTransition "Q2" Right (rune_of "1") ]};
     "Q3"%string :=
       {[ rune_of "1" := mkTransition "Q4" Left (rune_of " ");
          rune_of "*" := mkTransition "Q0" Stay (rune_of "1") ]};
     "Q4"%string :=
       {[ rune_of " " := mkTransition "Q5" Left (rune_of "1");
          rune_of "1" := mkTransition "Q4" Left (rune_of "1");
          rune_of "*" := mkTransition "Q4" Left (rune_of "*") ]};
     "Q5"%string :=
       {[ rune_of " " := mkTransition "Q6" Left (rune_of "1") ]};
     "Q6"%string :=
       {[ rune_of " " := mkTransition "Q7" Right (rune_of "1") ]};
     "Q7"%string :=
       {[ rune_of " " := mkTransition "Q3" Left (rune_of " ");
          rune_of "1" := mkTransition "Q7" Right (rune_of "1");
          rune_of "*" := mkTransition "Q7" Right (rune_of "*") ]} ]}.

(** The input of the addition test: [i] ones at the cells -i..-1, the
    sign ['+'] at cell 0 and [j] ones at the cells 1..j. *)
Definition addition_input (i j : nat) : gmap Z Z :=
  <[ 0 := rune_of "+" ]> (ones (- Z.of_nat i) i ∪ ones 1 j).

(** What the tests read off a tape: the number of cells that hold a one,
    provided every other cell holds the blank. *)
Definition count_ones (t : gmap Z Z) : nat :=
  size (filter (λ kv : Z * Z, kv.2 = rune_of "1") t).

Definition ones_and_blanks (t : gmap Z Z) : Prop :=
  map_Forall (λ _ sym, sym = rune_of "1" ∨ sym = rune_of " ") t.

(** A run on a tape of its own, at location 1, checked by a boolean test
    of the tape it returns. *)
Definition run_check (m : Machine) (c : Z) (t : gmap Z Z) (fuel : nat)
    (test : gmap Z Z → bool) : bool :=
  match exec_loop fuel Background 0 (reset m c 1) {[ 1%positive := t ]} with
  | Some ((Some _, None), _, h1) => test (deref h1 1)
  | _ => false
  end.

(** The test of the tests, as a boolean. *)
Definition ones_and_blanks_with (n : nat) (t : gmap Z Z) : bool :=
  bool_decide (ones_and_blanks t) && bool_decide (count_ones t = n).

(* ===================================================================== *)
(** * The engine: one step *)
(* ===================================================================== *)

Lemma step_spec m h : step_case m h (step m h).
Proof.
  unfold step.
  case_bool_decide as Hq; [by constructor|].
  case_bool_decide as Ha; simpl; [|by constructor].
  destruct (lookup_transition m (read m h)) as [t|] eqn:Ht; [|by constructor].
  destruct (bool_decide (Move t = Stay) && bool_decide (NextState t = state m)
            && bool_decide (Write t = read m h)) eqn:Hn.
  - apply (step_loop _ _ t); [done|].
    apply andb_prop in Hn as [Hn H3]. apply andb_prop in Hn as [H1 H2].
    apply bool_decide_eq_true in H1, H2, H3. done.
  - assert (Hno : ¬ no_op m h t).
    { intros (H3 & H1 & H2).
      rewrite !bool_decide_eq_true_2 in Hn by done. done. }
    pose proof (step_applied m h t (conj Hq (conj Ha Ht)) Hno) as Hc.
    unfold verdict in Hc.
    change (tape (apply_transition t m)) with (tape m) in Hc.
    change (maxTapeLength (apply_transition t m)) with (maxTapeLength m) in Hc.
    change (maxSteps (apply_transition t m)) with (maxSteps m) in Hc.
    cbn [set_steps set_state move set_carriage tape maxTapeLength maxSteps steps
         carriage state startState terminalState alphabet program].
    destruct (maxTapeLength m <=? _)%N; [exact Hc|].
    destruct ((0 <? maxSteps m)%N && _); exact Hc.
Qed.

(** ** Heap and record bookkeeping *)

Lemma set_tape_tape m : set_tape (tape m) m = m.
Proof. by destruct m. Qed.

Lemma set_tape_set_tape l l' m : set_tape l (set_tape l' m) = set_tape l m.
Proof. by destruct m. Qed.

Lemma deref_insert_eq (h : gmap positive (gmap Z Z)) l t :
  deref (<[ l := t ]> h) l = t.
Proof. unfold deref. by rewrite lookup_insert_eq. Qed.

Lemma deref_insert_ne (h : gmap positive (gmap Z Z)) l l' t :
  l ≠ l' → deref (<[ l := t ]> h) l' = deref h l'.
Proof. intros. unfold deref. by rewrite lookup_insert_ne. Qed.

Lemma deref_Some (h : gmap positive (gmap Z Z)) l t :
  h !! l = Some t → deref h l = t.
Proof. unfold deref. by intros ->. Qed.

Lemma deref_write sym m h :
  deref (write sym m h) (tape m) = <[ carriage m := sym ]> (deref h (tape m)).
Proof. apply deref_insert_eq. Qed.

Lemma write_other sym m h l : l ≠ tape m → write sym m h !! l = h !! l.
Proof. intros. unfold write. by rewrite lookup_insert_ne. Qed.

Lemma alloc_fresh (h : gmap positive (gmap Z Z)) : h !! alloc h = None.
Proof. apply not_elem_of_dom. unfold alloc. apply is_fresh. Qed.

Lemma copy_tape_id (input : gmap Z Z) : copy_tape input = input.
Proof.
  unfold copy_tape. rewrite map_fold_foldr.
  rewrite <- (list_to_map_to_list input) at 2.
  induction (map_to_list input) as [|[i s] l IH]; [done|].
  simpl. by rewrite IH.
Qed.

Lemma tape_apply_transition t m : tape (apply_transition t m) = tape m.
Proof. reflexivity. Qed.

(** ** The steps preserve the configuration of the machine *)

Lemma step_tape m h : tape (step m h).1.2 = tape m.
Proof. destruct (step_spec m h); reflexivity. Qed.

Lemma step_frame m h l : l ≠ tape m → (step m h).2 !! l = h !! l.
Proof.
  intros Hl. destruct (step_spec m h); simpl; try done.
  by apply write_other.
Qed.

Lemma step_allocated m h : is_Some (h !! tape m) → is_Some ((step m h).2 !! tape m).
Proof.
  intros Hl. destruct (step_spec m h); simpl; try done.
  unfold write. rewrite lookup_insert_eq. eauto.
Qed.

(** ** The loop *)

Lemma exec_loop_fuel_mono fuel fuel' ctx k m h out :
  exec_loop fuel ctx k m h = Some out → (fuel ≤ fuel')%nat →
  exec_loop fuel' ctx k m h = Some out.
Proof.
  revert fuel' k m h. induction fuel as [|fuel IH]; intros fuel' k m h; [done|].
  intros Hrun Hle. destruct fuel' as [|fuel']; [lia|].
  simpl in *. destruct (ctx k); [done|].
  destruct (step m h) as [[[ok err] m1] h1].
  destruct err; [done|]. destruct ok; [|done].
  apply IH; [done|lia].
Qed.

(** [step] looks at the heap only through the tape of the machine, and
    changes nothing else. *)
Lemma step_local m h t l1 :
  h !! tape m = Some t →
  step m h =
    let '(r, m1, h1) := step (set_tape l1 m) {[ l1 := t ]} in
    (r, set_tape (tape m) m1, <[ tape m := deref h1 l1 ]> h).
Proof.
  intros Ht.
  assert (Hid : <[ tape m := t ]> h = h) by by apply insert_id.
  unfold step, read, write, lookup_transition.
  cbn [set_tape tape carriage state terminalState alphabet program steps
       maxTapeLength maxSteps move set_carriage set_state set_steps].
  rewrite (deref_Some h (tape m) t Ht).
  rewrite (deref_Some {[ l1 := t ]} l1 t) by apply lookup_singleton_eq.
  case_bool_decide.
  { rewrite deref_Some with (t := t) by apply lookup_singleton_eq.
    rewrite Hid. by destruct m. }
  set (sym := match t !! carriage m with Some s => s | None => blank end).
  destruct (negb (bool_decide (sym ∈ alphabet m))).
  { rewrite deref_Some with (t := t) by apply lookup_singleton_eq.
    rewrite Hid. by destruct m. }
  destruct (match program m !! state m with Some row => row !! sym | None => None end)
    as [tr|].
  2:{ rewrite deref_Some with (t := t) by apply lookup_singleton_eq.
      rewrite Hid. by destruct m. }
  destruct (bool_decide (Move tr = Stay) && _ && _).
  { rewrite deref_Some with (t := t) by apply lookup_singleton_eq.
    rewrite Hid. by destruct m. }
  rewrite !deref_insert_eq.
  destruct (maxTapeLength m <=? _)%N;
    [|destruct ((0 <? maxSteps m)%N && _)];
    cbn beta iota; rewrite deref_insert_eq; by destruct m.
Qed.

Lemma exec_loop_local fuel ctx k m h t l1 :
  h !! tape m = Some t →
  exec_loop fuel ctx k m h =
    relocate (tape m) h l1 <$> exec_loop fuel ctx k (set_tape l1 m) {[ l1 := t ]}.
Proof.
  revert k m h t. induction fuel as [|fuel IH]; intros k m h t Ht; [done|].
  simpl. destruct (ctx k).
  { simpl. rewrite deref_Some with (t := t) by apply lookup_singleton_eq.
    rewrite set_tape_set_tape, set_tape_tape. by rewrite insert_id. }
  rewrite (step_local m h t l1 Ht).
  pose proof (step_tape (set_tape l1 m) {[ l1 := t ]}) as Htape.
  pose proof (step_allocated (set_tape l1 m) {[ l1 := t ]}) as Hal.
  pose proof (step_frame (set_tape l1 m) {[ l1 := t ]}) as Hfr.
  destruct (step (set_tape l1 m) {[ l1 := t ]}) as [[[ok err] m1] h1].
  simpl in Htape, Hal, Hfr.
  destruct Hal as [t1 Ht1]; [rewrite lookup_singleton_eq; eauto|].
  destruct err as [e|]; [done|].
  destruct ok; [|done].
  rewrite (IH _ _ _ t1).
  2:{ simpl. rewrite lookup_insert_eq. by rewrite (deref_Some _ _ _ Ht1). }
  cbn [tape set_tape]. rewrite set_tape_set_tape.
  assert (Hh1 : h1 = {[ l1 := t1 ]}).
  { apply map_eq. intros l. destruct (decide (l = l1)) as [->|Hne].
    - by rewrite lookup_singleton_eq.
    - rewrite lookup_singleton_ne by done. rewrite Hfr by done.
      by rewrite lookup_singleton_ne. }
  replace (set_tape l1 m1) with m1
    by (rewrite <- Htape; symmetry; apply set_tape_tape).
  rewrite <- Hh1.
  destruct (exec_loop fuel ctx (S k) m1 h1) as [[[[res err] m2] h2]|]; [|done].
  simpl. by rewrite insert_insert_eq.
Qed.

Lemma ExecCtx_local fuel ctx m h carriage input :
  ExecCtx fuel ctx m h carriage input =
    relocate (alloc h) h 1
      <$> exec_loop fuel ctx 0 (reset m carriage 1) {[ 1%positive := deref h input ]}.
Proof.
  unfold ExecCtx. rewrite copy_tape_id.
  rewrite (exec_loop_local _ _ _ _ _ (deref h input) 1%positive)
    by (simpl; apply lookup_insert_eq).
  cbn [tape set_tape]. unfold reset. rewrite set_tape_set_tape.
  destruct (exec_loop fuel ctx 0 _ _) as [[[[res err] m2] h2]|]; [|done].
  simpl. by rewrite insert_insert_eq.
Qed.

(** ** The error of one step *)

Lemma step_error_of_case m h out :
  step_case m h out →
  out.1.1.2 = Some ErrInfiniteLoop ↔ ∃ t, looked_up m h t ∧ no_op m h t.
Proof.
  intros Hc. split.
  - destruct Hc as [| | |t|t Hl Hn]; simpl; try done; [by eauto|].
    unfold verdict. destruct (_ <=? _)%N; [done|]. by destruct (_ && _).
  - intros (t & Hl & Hn).
    destruct Hc as [Hq|? Ha| ? ? Hnone |t'|t' Hl' Hn']; simpl; try done.
    + by destruct Hl.
    + by destruct Hl as (_ & ? & _).
    + destruct Hl as (_ & _ & Hl). congruence.
    + destruct Hl as (_ & _ & Hl), Hl' as (_ & _ & Hl'). congruence.
Qed.

Lemma verdict_cases m h :
  verdict m h = (false, Some ErrTapeOver) ∨
  verdict m h = (false, Some ErrStepsExceeded) ∨
  verdict m h = (true, None).
Proof.
  unfold verdict. destruct (_ <=? _)%N; [by left|].
  destruct (_ && _); auto.
Qed.

(* ===================================================================== *)
(** * Program.Validate *)
(* ===================================================================== *)

Lemma Validate_row_head tp a term row :
  Validate_row tp a term row = head (violations tp a term row).
Proof.
  induction row as [|[sym t] row IH]; [done|].
  unfold violations in *. simpl.
  by destruct (Validate_entry tp a term t).
Qed.

Lemma violations_app tp a term r1 r2 :
  violations tp a term (r1 ++ r2) = violations tp a term r1 ++ violations tp a term r2.
Proof. apply omap_app. Qed.

Lemma Validate_head tp order a term :
  Validate tp order a term = head (violations tp a term (entries_of order)).
Proof.
  induction order as [|[q row] order IH]; [done|].
  unfold entries_of in *. simpl. rewrite violations_app, Validate_row_head.
  destruct (violations tp a term row); simpl; [exact IH|done].
Qed.

Lemma elem_of_violations tp a term row e :
  e ∈ violations tp a term row ↔
  ∃ sym t, (sym, t) ∈ row ∧ Validate_entry tp a term t = Some e.
Proof.
  unfold violations. rewrite list_elem_of_omap. split.
  - intros ([sym t] & ? & ?). eauto.
  - intros (sym & t & ? & ?). by exists (sym, t).
Qed.

Lemma ranges_over_entry tp order sym t :
  ranges_over tp order →
  (sym, t) ∈ entries_of order ↔ ∃ q, entry tp q sym t.
Proof.
  intros [Hst Hrow]. unfold entries_of, entry. rewrite list_elem_of_join. split.
  - intros (row & Hin & Hrows).
    apply list_elem_of_fmap in Hrows as ([q row'] & -> & Hq).
    destruct (Hrow _ _ Hq) as (m & Hm & Hperm).
    exists q, m. split; [done|].
    apply elem_of_map_to_list. by rewrite <- Hperm.
  - intros (q & m & Hm & Ht).
    assert (q ∈ order.*1) as Hq.
    { rewrite Hst. apply list_elem_of_fmap. exists (q, m). split; [done|].
      by apply elem_of_map_to_list. }
    apply list_elem_of_fmap in Hq as ([q' row] & -> & Hq).
    destruct (Hrow _ _ Hq) as (m' & Hm' & Hperm). simpl in *.
    assert (m' = m) as -> by congruence.
    exists row. split.
    + rewrite Hperm. by apply elem_of_map_to_list.
    + apply list_elem_of_fmap. by exists (q', row).
Qed.

Lemma range_order_ranges_over tp : ranges_over tp (range_order tp).
Proof.
  unfold ranges_over, range_order. split.
  - rewrite <- list_fmap_compose. done.
  - intros q row Hin. apply list_elem_of_fmap in Hin as ([q' m] & [= -> ->] & Hin).
    exists m. split; [|done]. by apply elem_of_map_to_list.
Qed.

Lemma Validate_None tp order a term :
  ranges_over tp order →
  Validate tp order a term = None ↔
  ∀ q sym t, entry tp q sym t → Validate_entry tp a term t = None.
Proof.
  intros Hr. rewrite Validate_head. split.
  - intros Hnil q sym t Hent.
    destruct (Validate_entry tp a term t) as [e|] eqn:He; [|done].
    assert (e ∈ violations tp a term (entries_of order)) as Hin.
    { apply elem_of_violations. exists sym, t. split; [|done].
      apply (ranges_over_entry _ _ _ _ Hr). eauto. }
    destruct (violations tp a term (entries_of order)); [|done].
    by apply elem_of_nil in Hin.
  - intros Hall.
    destruct (violations tp a term (entries_of order)) as [|e l] eqn:Hv; [done|].
    assert (e ∈ violations tp a term (entries_of order)) as Hin
      by (rewrite Hv; left).
    apply elem_of_violations in Hin as (sym & t & Hin & He).
    apply (ranges_over_entry _ _ _ _ Hr) in Hin as [q Hent].
    rewrite (Hall _ _ _ Hent) in He. done.
Qed.

Lemma Validate_Some tp order a term e :
  ranges_over tp order →
  Validate tp order a term = Some e →
  ∃ q sym t, entry tp q sym t ∧ Validate_entry tp a term t = Some e.
Proof.
  intros Hr. rewrite Validate_head. intros Hh.
  assert (e ∈ violations tp a term (entries_of order)) as Hin.
  { destruct (violations tp a term (entries_of order)); simplify_eq/=. left. }
  apply elem_of_violations in Hin as (sym & t & Hin & He).
  apply (ranges_over_entry _ _ _ _ Hr) in Hin as [q Hent]. eauto.
Qed.

(** Whether validation succeeds does not depend on the order of the walk. *)
Lemma Validate_None_order tp o1 o2 a term :
  ranges_over tp o1 → ranges_over tp o2 →
  Validate tp o1 a term = None → Validate tp o2 a term = None.
Proof.
  intros H1 H2 Hv. apply (Validate_None _ _ _ _ H2).
  by apply (Validate_None _ _ _ _ H1).
Qed.

Lemma Validate_entry_cases tp a term t :
  (¬ valid_move t → Validate_entry tp a term t = Some ErrInvalidMoveDirection) ∧
  (valid_move t → Write t ∉ a →
     Validate_entry tp a term t = Some ErrUnexpectedSymbol) ∧
  (valid_move t → Write t ∈ a → NextState t = term →
     Validate_entry tp a term t = None) ∧
  (valid_move t → Write t ∈ a → NextState t ≠ term →
     tp !! NextState t = None →
     Validate_entry tp a term t = Some ErrStateNotFound) ∧
  (valid_move t → Write t ∈ a → NextState t ≠ term →
     is_Some (tp !! NextState t) →
     Validate_entry tp a term t = None).
Proof.
  unfold Validate_entry, valid_move.
  repeat case_bool_decide; simpl; repeat split; intros; try done;
    try (exfalso; tauto); try (destruct (tp !! NextState t); done).
Qed.

(** C4: program validation. For every entry of the program the loop body
    fails with InvalidMoveDirection when the move is none of Left, Right,
    Stay; otherwise with UnexpectedSymbol when the write symbol is not in
    the alphabet; otherwise it makes no further check when the next state
    is the terminal state; otherwise it fails with StateNotFound when the
    next state is not a key of the program, and passes when it is.
    Validation, in whatever order it walks the program, returns no error
    exactly when every entry passes; an error it returns is the one of an
    entry of the program, namely of the first failing entry it meets; when
    all the failing entries fail with the same error, that error is
    returned. *)
Theorem Validate_checks_every_entry tp order a term :
  ranges_over tp order →
  (∀ t,
     (¬ valid_move t → Validate_entry tp a term t = Some ErrInvalidMoveDirection) ∧
     (valid_move t → Write t ∉ a →
        Validate_entry tp a term t = Some ErrUnexpectedSymbol) ∧
     (valid_move t → Write t ∈ a → NextState t = term →
        Validate_entry tp a term t = None) ∧
     (valid_move t → Write t ∈ a → NextState t ≠ term →
        tp !! NextState t = None →
        Validate_entry tp a term t = Some ErrStateNotFound) ∧
     (valid_move t → Write t ∈ a → NextState t ≠ term →
        is_Some (tp !! NextState t) →
        Validate_entry tp a term t = None)) ∧
  (Validate tp order a term = None ↔
     ∀ q sym t, entry tp q sym t → Validate_entry tp a term t = None) ∧
  (∀ e, Validate tp order a term = Some e →
     ∃ q sym t, entry tp q sym t ∧ Validate_entry tp a term t = Some e) ∧
  (∀ e q sym t,
     entry tp q sym t → Validate_entry tp a term t = Some e →
     (∀ q' sym' t', entry tp q' sym' t' →
        Validate_entry tp a term t' = None ∨ Validate_entry tp a term t' = Some e) →
     Validate tp order a term = Some e) ∧
  Validate tp order a term = head (violations tp a term (entries_of order)).
Proof.
  intros Hr. split; [intros t; apply Validate_entry_cases|].
  split; [by apply Validate_None|].
  split; [intros e; by apply Validate_Some|].
  split; [|apply Validate_head].
  intros e q sym t Hent He Hall.
  destruct (Validate tp order a term) as [e'|] eqn:Hv.
  - destruct (Validate_Some _ _ _ _ _ Hr Hv) as (q' & sym' & t' & Hent' & He').
    destruct (Hall _ _ _ Hent') as [Hn | Hs]; congruence.
  - rewrite (proj1 (Validate_None _ _ _ _ Hr) Hv _ _ _ Hent) in He. done.
Qed.

Lemma Validate_checks_every_entry_witness :
  ranges_over dangling (range_order dangling) ∧
  Validate dangling (range_order dangling) {[ blank ]} "Q0" = Some ErrStateNotFound.
Proof.
  split; [apply range_order_ranges_over|].
  destruct (Validate_checks_every_entry dangling (range_order dangling)
              {[ blank ]} "Q0" (range_order_ranges_over dangling))
    as (_ & _ & _ & _ & ->).
  vm_compute. reflexivity.
Defined.

(** ** NewMachine *)

Lemma NewMachine_Ok order alph start term prog mtl ms
    (h : gmap positive (gmap Z Z)) :
  start ≠ EmptyString → term ≠ EmptyString → mtl ≠ 0%N →
  Validate prog order ({[ blank ]} ∪ list_to_set (runes alph)) term = None →
  NewMachine order alph start term prog mtl ms h =
    (Ok (mkMachine 0 (alloc h) EmptyString start term
           ({[ blank ]} ∪ list_to_set (runes alph)) prog 0%N mtl ms),
     <[ alloc h := ∅ ]> h).
Proof.
  intros Hs Ht Hm Hv. unfold NewMachine.
  rewrite !bool_decide_eq_false_2 by done. by rewrite Hv.
Qed.

Lemma NewMachine_Ok_any_order order alph start term prog mtl ms
    (h : gmap positive (gmap Z Z)) :
  ranges_over prog order →
  start ≠ EmptyString → term ≠ EmptyString → mtl ≠ 0%N →
  Validate prog (range_order prog) ({[ blank ]} ∪ list_to_set (runes alph)) term = None →
  NewMachine order alph start term prog mtl ms h =
    (Ok (mkMachine 0 (alloc h) EmptyString start term
           ({[ blank ]} ∪ list_to_set (runes alph)) prog 0%N mtl ms),
     <[ alloc h := ∅ ]> h).
Proof.
  intros Hr Hs Ht Hm Hv. apply NewMachine_Ok; try done.
  by apply (Validate_None_order prog (range_order prog) order);
    [apply range_order_ranges_over|..].
Qed.

(* ===================================================================== *)
(** * The infinite-loop guard *)
(* ===================================================================== *)

Lemma step_applied_eq m h t :
  looked_up m h t → ¬ no_op m h t →
  step m h = (verdict (apply_transition t m) (write (Write t) m h),
              apply_transition t m, write (Write t) m h).
Proof.
  intros Hl Hn. destruct (step_spec m h) as [Hq|? Ha|? ? Hnone|t' Hl' Hn'|t' Hl' Hn'].
  - by destruct Hl.
  - by destruct Hl as (_ & ? & _).
  - destruct Hl as (_ & _ & Hl). congruence.
  - destruct Hl as (_ & _ & Hl), Hl' as (_ & _ & Hl').
    assert (t' = t) as -> by congruence. done.
  - destruct Hl as (_ & _ & Hl), Hl' as (_ & _ & Hl').
    assert (t' = t) as -> by congruence. done.
Qed.

(** The machine built from [swing], at any point of its run. *)
Lemma swing_step q n (t : gmap Z Z) :
  q = "Q1"%string ∨ q = "Q2"%string →
  t = ∅ ∨ t = {[ 0 := blank ]} →
  ∃ q' n',
    (q' = "Q1"%string ∨ q' = "Q2"%string) ∧
    step (mkMachine 0 1 q "Q1" "Q0" {[ blank ]} swing n 10 0) {[ 1%positive := t ]} =
      ((true, None), mkMachine 0 1 q' "Q1" "Q0" {[ blank ]} swing n' 10 0,
       {[ 1%positive := {[ 0 := blank ]} ]}).
Proof.
  intros [-> | ->] [-> | ->]; eexists _, _; (split; [|vm_compute; reflexivity]); auto.
Qed.

Lemma swing_runs fuel k q n (t : gmap Z Z) :
  q = "Q1"%string ∨ q = "Q2"%string →
  t = ∅ ∨ t = {[ 0 := blank ]} →
  exec_loop fuel Background k
    (mkMachine 0 1 q "Q1" "Q0" {[ blank ]} swing n 10 0) {[ 1%positive := t ]} = None.
Proof.
  revert k q n t. induction fuel as [|fuel IH]; intros k q n t Hq Ht; [done|].
  destruct (swing_step q n t Hq Ht) as (q' & n' & Hq' & Hstep).
  simpl. rewrite Hstep. apply IH; auto.
Qed.

(** C2: a step fails with InfiniteLoop exactly when the transition it
    looked up writes the symbol just read, moves Stay and leads to the
    current state. Any other transition that is looked up is applied (the
    step then succeeds or trips one of the two limit guards); without a
    looked-up transition the step changes nothing and halts or fails with
    UnexpectedSymbol or TransitionNotFound. A cycle of two steps is not
    caught: the machine that swings between Q1 and Q2 on one blank cell,
    with no step limit, is still running after any number of steps. *)
Theorem step_infinite_loop_guard :
  (∀ m h ok err m' h',
     step m h = ((ok, err), m', h') →
     err = Some ErrInfiniteLoop ↔ ∃ t, looked_up m h t ∧ no_op m h t) ∧
  (∀ m h t,
     looked_up m h t → ¬ no_op m h t →
     step m h = (verdict (apply_transition t m) (write (Write t) m h),
                 apply_transition t m, write (Write t) m h) ∧
     (verdict (apply_transition t m) (write (Write t) m h) = (false, Some ErrTapeOver) ∨
      verdict (apply_transition t m) (write (Write t) m h) = (false, Some ErrStepsExceeded) ∨
      verdict (apply_transition t m) (write (Write t) m h) = (true, None))) ∧
  (∀ m h ok err m' h',
     step m h = ((ok, err), m', h') →
     (¬ ∃ t, looked_up m h t) →
     m' = m ∧ h' = h ∧ ok = false ∧
     (err = None ∨ err = Some ErrUnexpectedSymbol ∨ err = Some ErrTransitionNotFound)) ∧
  (∀ order (h0 : gmap positive (gmap Z Z)),
     ranges_over swing order →
     ∃ m h1,
       NewMachine order "" "Q1" "Q0" swing 10 0 h0 = (Ok m, h1) ∧
       ∀ fuel (h : gmap positive (gmap Z Z)) input,
         deref h input = ∅ → Exec fuel m h 0 input = None).
Proof.
  split; [|split; [|split]].
  - intros m h ok err m' h' Hstep.
    pose proof (step_error_of_case m h _ (step_spec m h)) as Hc.
    by rewrite Hstep in Hc.
  - intros m h t Hl Hn. split; [by apply step_applied_eq|apply verdict_cases].
  - intros m h ok err m' h' Hstep Hno.
    destruct (step_spec m h) as [Hq|? Ha|? ? Hnone|t' Hl' Hn'|t' Hl' Hn'];
      try (destruct Hno; eauto; fail); simplify_eq; repeat split; auto.
  - intros order h0 Hr. eexists _, _. split.
    + apply NewMachine_Ok_any_order; [done..|]. vm_compute. reflexivity.
    + intros fuel h input Hin. unfold Exec. rewrite ExecCtx_local, Hin.
      replace (list_to_set (runes "")) with (∅ : gset Z) by reflexivity.
      rewrite (right_id_L ∅ (∪)).
      change (reset _ 0 1)
        with (mkMachine 0 1 "Q1" "Q1" "Q0" {[ blank ]} swing 0 10 0).
      rewrite swing_runs; auto.
Qed.

Lemma step_infinite_loop_guard_witness :
  ranges_over swing (range_order swing) ∧
  ∃ m h1,
    NewMachine (range_order swing) "" "Q1" "Q0" swing 10 0 ∅ = (Ok m, h1) ∧
    Exec 1000 m h1 0 2%positive = None.
Proof.
  split; [apply range_order_ranges_over|].
  destruct step_infinite_loop_guard as (_ & _ & _ & Hswing).
  destruct (Hswing (range_order swing) ∅ (range_order_ranges_over swing))
    as (m & h1 & Hnew & Hrun).
  exists m, h1. split; [exact Hnew|]. apply Hrun.
  rewrite NewMachine_Ok_any_order in Hnew;
    [|apply range_order_ranges_over|done..|vm_compute; reflexivity].
  injection Hnew as _ <-. vm_compute. reflexivity.
Defined.

(* ===================================================================== *)
(** * The tape during a run *)
(* ===================================================================== *)

Lemma step_dom m h :
  dom (deref h (tape m)) ⊆ dom (deref (step m h).2 (tape m)).
Proof.
  destruct (step_spec m h); simpl; try done.
  rewrite deref_write, dom_insert_L. set_solver.
Qed.

Lemma exec_loop_dom fuel ctx k m h r m' h' :
  exec_loop fuel ctx k m h = Some (r, m', h') →
  tape m' = tape m ∧ dom (deref h (tape m)) ⊆ dom (deref h' (tape m')).
Proof.
  revert k m h. induction fuel as [|fuel IH]; intros k m h; [done|].
  simpl. destruct (ctx k); [intros ?; by simplify_eq|].
  pose proof (step_tape m h) as Htape. pose proof (step_dom m h) as Hdom.
  destruct (step m h) as [[[ok err] m1] h1]. simpl in Htape, Hdom.
  destruct err as [e|].
  { intros ?; simplify_eq. by rewrite Htape. }
  destruct ok.
  - intros Hrun. destruct (IH _ _ _ Hrun) as [Ht Hd].
    split; [congruence|]. rewrite Htape in Hd. by etrans.
  - intros ?; simplify_eq. by rewrite Htape.
Qed.

(** C9: the occupied cells of the tape never shrink. A step leaves the
    tape where it is and loses no cell; when it applies a transition the
    tape afterwards is the tape before with the write symbol stored at
    the carriage cell, blank or not, so that the cell is occupied, the
    count grows by one when the cell was absent, and the tape-length
    guard sees the new count. The same holds along the loop and for the
    whole run: every cell of the input is a cell of the final tape. *)
Theorem tape_cells_never_shrink :
  (∀ m h r m' h',
     step m h = (r, m', h') →
     tape m' = tape m ∧ dom (deref h (tape m)) ⊆ dom (deref h' (tape m))) ∧
  (∀ m h t r m' h',
     step m h = (r, m', h') → looked_up m h t → ¬ no_op m h t →
     deref h' (tape m) = <[ carriage m := Write t ]> (deref h (tape m)) ∧
     deref h' (tape m) !! carriage m = Some (Write t) ∧
     (deref h (tape m) !! carriage m = None →
        size (deref h' (tape m)) = S (size (deref h (tape m)))) ∧
     ((maxTapeLength m <= N.of_nat (size (deref h' (tape m))))%N →
        r = (false, Some ErrTapeOver))) ∧
  (∀ fuel ctx k m h r m' h',
     exec_loop fuel ctx k m h = Some (r, m', h') →
     tape m' = tape m ∧ dom (deref h (tape m)) ⊆ dom (deref h' (tape m))) ∧
  (∀ fuel ctx m h c input r m' h',
     ExecCtx fuel ctx m h c input = Some (r, m', h') →
     dom (deref h input) ⊆ dom (deref h' (tape m'))).
Proof.
  split; [|split; [|split]].
  - intros m h r m' h' Hstep.
    pose proof (step_tape m h) as Ht. pose proof (step_dom m h) as Hd.
    rewrite Hstep in Ht, Hd. done.
  - intros m h t r m' h' Hstep Hl Hn.
    rewrite (step_applied_eq m h t Hl Hn) in Hstep. injection Hstep as <- <- <-.
    rewrite deref_write. split; [done|]. split; [apply lookup_insert_eq|].
    split; [apply map_size_insert_None|].
    intros Hle. unfold verdict. cbn [tape apply_transition set_steps set_state
      move set_carriage maxTapeLength]. rewrite deref_write.
    apply N.leb_le in Hle. by rewrite Hle.
  - intros fuel ctx k m h r m' h' Hrun.
    destruct (exec_loop_dom _ _ _ _ _ _ _ _ Hrun) as [Ht Hd].
    split; [done|]. by rewrite Ht in Hd.
  - intros fuel ctx m h c input r m' h' Hrun. unfold ExecCtx in Hrun.
    destruct (exec_loop_dom _ _ _ _ _ _ _ _ Hrun) as [Ht Hd].
    cbn [tape set_tape] in Hd. by rewrite deref_insert_eq, copy_tape_id in Hd.
Qed.

Lemma tape_cells_never_shrink_witness :
  ∃ r m' h',
    ExecCtx 10 Background
      (mkMachine 0 1 "" "Q1" "Q0" {[ blank ]} go_left 0 10 10000)
      {[ 1%positive := ∅; 2%positive := {[ 7 := blank ]} ]} 0 2%positive
    = Some (r, m', h') ∧
    dom (deref ({[ 1%positive := ∅; 2%positive := {[ 7 := blank ]} ]}
                  : gmap positive (gmap Z Z)) 2)
      ⊆ dom (deref h' (tape m')).
Proof.
  eexists _, _, _. 
  split; [vm_compute; reflexivity|].
  destruct tape_cells_never_shrink as (_ & _ & _ & Hrun).
  eapply (Hrun 10%nat Background
           (mkMachine 0 1 "" "Q1" "Q0" {[ blank ]} go_left 0 10 10000)
           {[ 1%positive := ∅; 2%positive := {[ 7 := blank ]} ]} 0 2%positive).
  vm_compute. reflexivity.
Defined.

(* ===================================================================== *)
(** * The limit guards and the halt *)
(* ===================================================================== *)

(** C10: the limit guards come before the halt. When the step that is
    applied leads to the terminal state and the tape then holds at least
    [maxTapeLength] cells, the run fails with TapeOver; otherwise, when a
    positive [maxSteps] is reached by the step counter, it fails with
    StepsExceeded; no tape is returned in either case. Only when neither
    guard trips does the next turn of the loop see the terminal state and
    return the tape. *)
Theorem limit_guards_precede_halt m h t :
  looked_up m h t → ¬ no_op m h t → NextState t = terminalState m →
  state (apply_transition t m) = terminalState (apply_transition t m) ∧
  ((maxTapeLength m <= N.of_nat (size (deref (write (Write t) m h) (tape m))))%N →
     step m h = ((false, Some ErrTapeOver),
                 apply_transition t m, write (Write t) m h) ∧
     ∀ fuel ctx k, ctx k = false →
       exec_loop (S fuel) ctx k m h =
         Some ((None, Some ErrTapeOver), apply_transition t m, write (Write t) m h)) ∧
  ((N.of_nat (size (deref (write (Write t) m h) (tape m))) < maxTapeLength m)%N →
   (0 < maxSteps m)%N → (maxSteps m <= steps (apply_transition t m))%N →
     step m h = ((false, Some ErrStepsExceeded),
                 apply_transition t m, write (Write t) m h) ∧
     ∀ fuel ctx k, ctx k = false →
       exec_loop (S fuel) ctx k m h =
         Some ((None, Some ErrStepsExceeded),
               apply_transition t m, write (Write t) m h)) ∧
  ((N.of_nat (size (deref (write (Write t) m h) (tape m))) < maxTapeLength m)%N →
   (maxSteps m = 0 ∨ steps (apply_transition t m) < maxSteps m)%N →
     ∀ fuel ctx k, ctx k = false → ctx (S k) = false →
       exec_loop (S (S fuel)) ctx k m h =
         Some ((Some (tape m), None), apply_transition t m, write (Write t) m h)).
Proof.
  intros Hl Hn Hterm.
  pose proof (step_applied_eq m h t Hl Hn) as Hstep.
  unfold verdict in Hstep.
  change (tape (apply_transition t m)) with (tape m) in Hstep.
  change (maxTapeLength (apply_transition t m)) with (maxTapeLength m) in Hstep.
  change (maxSteps (apply_transition t m)) with (maxSteps m) in Hstep.
  split; [exact Hterm|]. split; [|split].
  - intros Hle. apply N.leb_le in Hle. rewrite Hle in Hstep.
    split; [done|]. intros fuel ctx k Hk. simpl. by rewrite Hk, Hstep.
  - intros Hlt Hpos Hmax. apply N.leb_gt in Hlt. rewrite Hlt in Hstep.
    apply N.ltb_lt in Hpos. apply N.leb_le in Hmax. rewrite Hpos, Hmax in Hstep.
    split; [done|]. intros fuel ctx k Hk. simpl. by rewrite Hk, Hstep.
  - intros Hlt Hsteps fuel ctx k Hk Hk'. apply N.leb_gt in Hlt. rewrite Hlt in Hstep.
    assert ((0 <? maxSteps m)%N && (maxSteps m <=? steps (apply_transition t m))%N
            = false) as Hno.
    { destruct Hsteps as [-> | Hs]; [done|].
      apply N.leb_gt in Hs. rewrite Hs. apply andb_false_r. }
    rewrite Hno in Hstep.
    cbn [exec_loop]. rewrite Hk, Hstep, Hk'.
    unfold step. by rewrite bool_decide_eq_true_2.
Qed.

Lemma limit_guards_precede_halt_witness :
  exec_loop 1 Background 0
    (mkMachine (-1) 1 "Q1" "Q1" "Q0" {[ blank; rune_of "1" ]} increment 1 2 10)
    {[ 1%positive := {[ 0 := rune_of "1" ]} ]}
  = Some ((None, Some ErrTapeOver),
          apply_transition (mkTransition "Q0" Stay (rune_of "1"))
            (mkMachine (-1) 1 "Q1" "Q1" "Q0" {[ blank; rune_of "1" ]} increment 1 2 10),
          write (rune_of "1")
            (mkMachine (-1) 1 "Q1" "Q1" "Q0" {[ blank; rune_of "1" ]} increment 1 2 10)
            {[ 1%positive := {[ 0 := rune_of "1" ]} ]}).
Proof.
  refine (proj2 (proj1 (proj2 (limit_guards_precede_halt
    (mkMachine (-1) 1 "Q1" "Q1" "Q0" {[ blank; rune_of "1" ]} increment 1 2 10)
    {[ 1%positive := {[ 0 := rune_of "1" ]} ]}
    (mkTransition "Q0" Stay (rune_of "1")) _ _ _)) _) 0%nat Background 0%nat _).
  - split; [done|]. split; [|vm_compute; reflexivity].
    refine (bool_decide_unpack _ _). vm_compute. exact I.
  - intros (_ & _ & Hq). discriminate Hq.
  - reflexivity.
  - vm_compute. discriminate.
  - reflexivity.
Defined.

(* ===================================================================== *)
(** * Runs of the test machines *)
(* ===================================================================== *)

(** A run is settled on a private copy of the input, at location 1 of a
    heap that holds nothing else; more fuel does not change its result. *)
Lemma Exec_settled fuel0 fuel m (h : gmap positive (gmap Z Z)) c input t out :
  deref h input = t →
  exec_loop fuel0 Background 0 (reset m c 1) {[ 1%positive := t ]} = Some out →
  (fuel0 ≤ fuel)%nat →
  Exec fuel m h c input = Some (relocate (alloc h) h 1 out).
Proof.
  intros Hin Hrun Hle. unfold Exec. rewrite ExecCtx_local, Hin.
  by rewrite (exec_loop_fuel_mono _ _ _ _ _ _ _ Hrun Hle).
Qed.

Lemma ones_lookup lo count i s : ones lo count !! i = Some s → s = rune_of "1".
Proof.
  unfold ones. intros Hl. apply elem_of_list_to_map_2 in Hl.
  apply list_elem_of_fmap in Hl as (j & [= _ ->] & _). done.
Qed.

Lemma ones_size lo count : size (ones lo count) = count.
Proof.
  unfold ones. generalize 0%nat.
  induction count as [|count IH]; intros j; [done|].
  cbn [seq fmap list_fmap list_to_map foldr].
  rewrite map_size_insert_None; [by rewrite IH|].
  apply not_elem_of_list_to_map_1. intros Hin.
  apply list_elem_of_fmap in Hin as ([k s] & Hk & Hin). simpl in Hk.
  apply list_elem_of_fmap in Hin as (j' & [= -> ->] & Hin).
  apply elem_of_seq in Hin. lia.
Qed.

(** C5: the machine that goes left for ever on an empty tape, from
    carriage 0, fails with StepsExceeded under the limits (tape 10000,
    steps 10) and with TapeOver under the limits (tape 10, steps 10000);
    the machine that stays where it is (no step limit, any tape limit)
    fails with InfiniteLoop. Ten turns of the loop, or one, are enough
    fuel, and more fuel gives the same result. *)
Theorem limits_stop_the_runaway_machines :
  (∀ order (h0 : gmap positive (gmap Z Z)),
     ranges_over go_left order →
     ∃ m h1,
       NewMachine order "" "Q1" "Q0" go_left 10000 10 h0 = (Ok m, h1) ∧
       ∀ fuel (h : gmap positive (gmap Z Z)) input,
         deref h input = ∅ → (10 ≤ fuel)%nat →
         ∃ m' h', Exec fuel m h 0 input = Some ((None, Some ErrStepsExceeded), m', h')) ∧
  (∀ order (h0 : gmap positive (gmap Z Z)),
     ranges_over go_left order →
     ∃ m h1,
       NewMachine order "" "Q1" "Q0" go_left 10 10000 h0 = (Ok m, h1) ∧
       ∀ fuel (h : gmap positive (gmap Z Z)) input,
         deref h input = ∅ → (10 ≤ fuel)%nat →
         ∃ m' h', Exec fuel m h 0 input = Some ((None, Some ErrTapeOver), m', h')) ∧
  (∀ order (h0 : gmap positive (gmap Z Z)) maxTapeLength,
     ranges_over stay_put order → maxTapeLength ≠ 0%N →
     ∃ m h1,
       NewMachine order "" "Q1" "Q0" stay_put maxTapeLength 0 h0 = (Ok m, h1) ∧
       ∀ fuel (h : gmap positive (gmap Z Z)) input,
         deref h input = ∅ → (1 ≤ fuel)%nat →
         ∃ m' h', Exec fuel m h 0 input = Some ((None, Some ErrInfiniteLoop), m', h')).
Proof.
  split; [|split].
  - intros order h0 Hr. eexists _, _. split.
    { apply NewMachine_Ok_any_order; [done..|]. vm_compute. reflexivity. }
    intros fuel h input Hin Hfuel. eexists _, _.
    erewrite (Exec_settled 10); [|exact Hin|vm_compute; reflexivity|exact Hfuel].
    reflexivity.
  - intros order h0 Hr. eexists _, _. split.
    { apply NewMachine_Ok_any_order; [done..|]. vm_compute. reflexivity. }
    intros fuel h input Hin Hfuel. eexists _, _.
    erewrite (Exec_settled 10); [|exact Hin|vm_compute; reflexivity|exact Hfuel].
    reflexivity.
  - intros order h0 mtl Hr Hmtl. eexists _, _. split.
    { apply NewMachine_Ok_any_order; [done..|]. vm_compute. reflexivity. }
    intros fuel h input Hin Hfuel. eexists _, _.
    erewrite (Exec_settled 1); [|exact Hin|vm_compute; reflexivity|exact Hfuel].
    reflexivity.
Qed.

Lemma limits_stop_the_runaway_machines_witness :
  ranges_over go_left (range_order go_left) ∧
  ∃ m h1,
    NewMachine (range_order go_left) "" "Q1" "Q0" go_left 10000 10 ∅ = (Ok m, h1) ∧
    ∃ m' h', Exec 10 m (<[ 2%positive := ∅ ]> h1) 0 2%positive
             = Some ((None, Some ErrStepsExceeded), m', h').
Proof.
  split; [apply range_order_ranges_over|].
  destruct limits_stop_the_runaway_machines as (Hsteps & _ & _).
  destruct (Hsteps (range_order go_left) ∅ (range_order_ranges_over go_left))
    as (m & h1 & Hnew & Hrun).
  exists m, h1. split; [exact Hnew|].
  apply Hrun; [apply deref_insert_eq|lia].
Defined.

Lemma increment_run (n : nat) fuel m (h : gmap positive (gmap Z Z)) input out :
  deref h input = ones 0 (S n) →
  exec_loop 3 Background 0 (reset m 0 1) {[ 1%positive := ones 0 (S n) ]}
    = Some ((Some 1%positive, None), out, {[ 1%positive := ones (-1) (n + 2) ]}) →
  (3 ≤ fuel)%nat →
  ∃ r m' h',
    Exec fuel m h 0 input = Some ((Some r, None), m', h') ∧
    deref h' r = ones (-1) (n + 2).
Proof.
  intros Hin Hrun Hfuel. eexists _, _, _.
  erewrite (Exec_settled 3); [|exact Hin|exact Hrun|exact Hfuel].
  split; [reflexivity|]. rewrite deref_insert_eq. apply deref_Some, lookup_singleton_eq.
Qed.

(** C6: the increment machine (alphabet "1", start Q1, terminal Q0, tape
    limit 20, step limit 10), run from carriage 0 on n+1 ones at the cells
    0..n, halts for every n from 0 to 9 and returns the tape with ones at
    the cells -1..n and nothing else: n+2 occupied cells, each a one. *)
Theorem increment_adds_a_one order (h0 : gmap positive (gmap Z Z)) :
  ranges_over increment order →
  ∃ m h1,
    NewMachine order "1" "Q1" "Q0" increment 20 10 h0 = (Ok m, h1) ∧
    ∀ (n : nat) fuel (h : gmap positive (gmap Z Z)) input,
      (n ≤ 9)%nat → deref h input = ones 0 (S n) → (3 ≤ fuel)%nat →
      ∃ r m' h',
        Exec fuel m h 0 input = Some ((Some r, None), m', h') ∧
        deref h' r = ones (-1) (n + 2) ∧
        size (deref h' r) = (n + 2)%nat ∧
        ∀ i s, deref h' r !! i = Some s → s = rune_of "1".
Proof.
  intros Hr. eexists _, _. split.
  { apply NewMachine_Ok_any_order; [done..|]. vm_compute. reflexivity. }
  intros n fuel h input Hn Hin Hfuel.
  cut (∃ r m' h',
         Exec fuel
           (mkMachine 0 (alloc h0) "" "Q1" "Q0"
              ({[ blank ]} ∪ list_to_set (runes "1")) increment 0 20 10)
           h 0 input = Some ((Some r, None), m', h') ∧
         deref h' r = ones (-1) (n + 2)).
  { intros (r & m' & h' & Hrun & Htape). exists r, m', h'.
    split; [done|]. split; [done|]. rewrite Htape.
    split; [apply ones_size|apply ones_lookup]. }
  do 10 (destruct n as [|n];
         [eapply increment_run; [exact Hin|vm_compute; reflexivity|exact Hfuel]|]).
  lia.
Qed.

Lemma increment_adds_a_one_witness :
  ranges_over increment (range_order increment) ∧
  ∃ m h1,
    NewMachine (range_order increment) "1" "Q1" "Q0" increment 20 10 ∅ = (Ok m, h1) ∧
    ∃ r m' h',
      Exec 3 m (<[ 2%positive := ones 0 4 ]> h1) 0 2%positive
        = Some ((Some r, None), m', h') ∧
      deref h' r = ones (-1) (3 + 2) ∧
      size (deref h' r) = (3 + 2)%nat ∧
      ∀ i s, deref h' r !! i = Some s → s = rune_of "1".
Proof.
  split; [apply range_order_ranges_over|].
  destruct (increment_adds_a_one (range_order increment) ∅
              (range_order_ranges_over increment)) as (m & h1 & Hnew & Hrun).
  exists m, h1. split; [exact Hnew|].
  apply (Hrun 3%nat); [lia|apply deref_insert_eq|lia].
Defined.

(* ===================================================================== *)
(** * Who owns the tapes *)
(* ===================================================================== *)

Lemma exec_loop_result fuel ctx k m h res err m' h' :
  exec_loop fuel ctx k m h = Some ((res, err), m', h') →
  (res = Some (tape m') ∧ err = None ∧ state m' = terminalState m') ∨
  (res = None ∧ is_Some err).
Proof.
  revert k m h. induction fuel as [|fuel IH]; intros k m h; [done|].
  simpl. destruct (ctx k); [intros [= <- <- <- <-]; right; eauto|].
  destruct (step_spec m h) as [Hq| | | |t Hl Hn]; simpl;
    try (intros [= <- <- <- <-]; (by left) || (right; eauto); fail).
  destruct (verdict_cases (apply_transition t m) (write (Write t) m h))
    as [-> | [-> | ->]]; try (intros [= <- <- <- <-]; right; eauto; fail).
  apply IH.
Qed.

Lemma alloc_insert_allocated (h : gmap positive (gmap Z Z)) l t :
  is_Some (h !! l) → alloc (<[ l := t ]> h) = alloc h.
Proof.
  intros Hl. unfold alloc. f_equal. rewrite dom_insert_L.
  apply elem_of_dom in Hl. apply subseteq_union_1_L. by apply singleton_subseteq_l.
Qed.

(** The returned tape is the tape the machine keeps: a counterexample to
    "no retained alias". The increment machine is run on the input "1";
    the map it returns is the one its [tape] field refers to, and what the
    caller then stores in cell 5 of the result is what the machine reads
    at cell 5 of its tape. *)
Lemma returned_tape_is_the_machine_tape :
  ∃ r m' h',
    ExecCtx 3 Background
      (mkMachine 0 1 "" "Q1" "Q0" {[ blank; rune_of "1" ]} increment 0 20 10)
      {[ 1%positive := ∅; 2%positive := {[ 0 := rune_of "1" ]} ]} 0 2%positive
    = Some ((Some r, None), m', h') ∧
    r = tape m' ∧
    read (set_carriage 5 m') h' = blank ∧
    read (set_carriage 5 m') (<[ r := <[ 5 := (rune_of "x") ]> (deref h' r) ]> h')
      = rune_of "x".
Proof.
  eexists _, _, _. split; [vm_compute; reflexivity|].
  split; [reflexivity|]. split; vm_compute; reflexivity.
Qed.

(** C1, as the code has it: a run changes no map that existed before it,
    so the caller's input is left as it was; a tape is returned only with
    a nil error and then it is a map allocated by this run, hence not the
    input, but it is the map the machine's [tape] field still refers to.
    The next run on that machine starts on a fresh copy of its input: it
    goes the same way whatever the caller has stored in the earlier
    result meanwhile, and it leaves that result alone. *)
Theorem ExecCtx_copies_input_and_returns_its_tape
    fuel ctx m (h : gmap positive (gmap Z Z)) c input res err m' h' :
  ExecCtx fuel ctx m h c input = Some ((res, err), m', h') →
  (∀ l, l ∈ dom h → h' !! l = h !! l) ∧
  (res = None → is_Some err) ∧
  (∀ r, res = Some r →
     err = None ∧ (r ∉ dom h) ∧ is_Some (h' !! r) ∧ r = tape m' ∧
     ∀ t' fuel2 ctx2 c2 input2,
       input2 ≠ r →
       ExecCtx fuel2 ctx2 m' (<[ r := t' ]> h') c2 input2 =
         (λ out, (out.1, <[ r := t' ]> out.2)) <$> ExecCtx fuel2 ctx2 m' h' c2 input2).
Proof.
  intros Hrun.
  pose proof (exec_loop_result _ _ _ _ _ _ _ _ _ Hrun) as Hres.
  rewrite ExecCtx_local in Hrun.
  destruct (exec_loop fuel ctx 0 _ _) as [[[[res1 err1] m1] h1]|]; [|done].
  simpl in Hrun. injection Hrun as <- <- <- <-.
  pose proof (alloc_fresh h) as Hfresh.
  split; [|split].
  - intros l Hl. apply elem_of_dom in Hl as [t Hl].
    rewrite lookup_insert_ne; [done|]. intros <-. congruence.
  - intros Hnone. destruct Hres as [(Hsome & _) | (_ & ?)]; [|done].
    rewrite Hnone in Hsome. done.
  - intros r Hr. destruct Hres as [(Hsome & Herr & _) | (Hnone & _)].
    2:{ rewrite Hnone in Hr. done. }
    rewrite Hsome in Hr. injection Hr as <-. cbn [tape set_tape].
    split; [done|]. split; [by apply not_elem_of_dom|].
    split; [rewrite lookup_insert_eq; eauto|]. split; [done|].
    intros t' fuel2 ctx2 c2 input2 Hne.
    rewrite !ExecCtx_local.
    rewrite alloc_insert_allocated by (rewrite lookup_insert_eq; eauto).
    rewrite (deref_insert_ne _ _ _ _ (not_eq_sym Hne)).
    set (h' := <[ alloc h := deref h1 1 ]> h).
    assert (alloc h' ≠ alloc h) as Hne'.
    { intros Heq. pose proof (alloc_fresh h') as Hf. rewrite Heq in Hf.
      unfold h' in Hf. by rewrite lookup_insert_eq in Hf. }
    destruct (exec_loop fuel2 ctx2 0 _ _) as [[[[res2 err2] m2] h2]|]; [|done].
    simpl. by rewrite insert_insert_ne.
Qed.

Lemma ExecCtx_copies_input_and_returns_its_tape_witness :
  (∀ l, l ∈ dom ({[ 1%positive := ∅; 2%positive := {[ 0 := rune_of "1" ]} ]}
                   : gmap positive (gmap Z Z)) →
        ({[ 1%positive := ∅; 2%positive := {[ 0 := rune_of "1" ]};
            3%positive := ones (-1) 2 ]} : gmap positive (gmap Z Z)) !! l =
        ({[ 1%positive := ∅; 2%positive := {[ 0 := rune_of "1" ]} ]}
           : gmap positive (gmap Z Z)) !! l) ∧
  3%positive ∉ dom ({[ 1%positive := ∅; 2%positive := {[ 0 := rune_of "1" ]} ]}
                      : gmap positive (gmap Z Z)).
Proof.
  destruct (ExecCtx_copies_input_and_returns_its_tape 3 Background
    (mkMachine 0 1 "" "Q1" "Q0" {[ blank; rune_of "1" ]} increment 0 20 10)
    {[ 1%positive := ∅; 2%positive := {[ 0 := rune_of "1" ]} ]} 0 2%positive
    (Some 3%positive) None
    (mkMachine (-1) 3 "Q0" "Q1" "Q0" {[ blank; rune_of "1" ]} increment 2 20 10)
    {[ 1%positive := ∅; 2%positive := {[ 0 := rune_of "1" ]};
       3%positive := ones (-1) 2 ]})
    as (Hframe & _ & Hres).
  { vm_compute. reflexivity. }
  split; [exact Hframe|].
  by destruct (Hres 3%positive eq_refl) as (_ & Hfresh & _).
Defined.

(* ===================================================================== *)
(** * ParseTransition *)
(* ===================================================================== *)

(** The six orders in which a call may meet the three separators. *)
Lemma directionTable_orders order :
  order ≡ₚ directionTable →
  order = [(">"%char, Right); ("<"%char, Left); ("."%char, Stay)] ∨
  order = [("<"%char, Left); (">"%char, Right); ("."%char, Stay)] ∨
  order = [("<"%char, Left); ("."%char, Stay); (">"%char, Right)] ∨
  order = [(">"%char, Right); ("."%char, Stay); ("<"%char, Left)] ∨
  order = [("."%char, Stay); (">"%char, Right); ("<"%char, Left)] ∨
  order = [("."%char, Stay); ("<"%char, Left); (">"%char, Right)].
Proof.
  intros Hp. symmetry in Hp. apply permutations_Permutation in Hp.
  cbv in Hp.
  repeat (apply elem_of_cons in Hp as [-> | Hp]; [tauto|]).
  by apply elem_of_nil in Hp.
Qed.

Lemma ParseTransition_Ok order field t :
  ParseTransition order field = Ok t →
  ∃ sep dir f0 f1,
    (sep, dir) ∈ order ∧ Split field sep = [f0; f1] ∧
    f0 ≠ EmptyString ∧ f1 ≠ EmptyString ∧
    NextState t = String "Q" f1 ∧ Move t = dir ∧
    Write t = (if (utf8.DecodeRuneInString f0).1 =? rune_of "_"
               then rune_of " " else (utf8.DecodeRuneInString f0).1).
Proof.
  induction order as [|[sep dir] order IH]; [done|].
  simpl. destruct (ContainsRune field sep).
  - destruct (Split field sep) as [|f0 [|f1 [|]]] eqn:Hs; try done.
    repeat case_bool_decide; try done. simpl.
    intros [= <-]. exists sep, dir, f0, f1. simpl.
    repeat split; try done. left.
  - intros Hp. destruct (IH Hp) as (sep' & dir' & f0 & f1 & Hin & Hrest).
    exists sep', dir', f0, f1. split; [by right|done].
Qed.

(** C3: whatever the order in which the call meets the separators,
    ["1>2"] parses to (Q2, write '1', Right), ["1<3"] to (Q3, write '1',
    Left) and ["1.2"] to (Q2, write '1', Stay); the fields [""], ["Q2"],
    ["Q2>"] and ["1!2"] fail with ParseTransition; an underscore as the
    symbol is returned as the blank, as in ["_>2"]: the write field of a
    successful parse is the first rune of the symbol part, or the blank
    when that rune is the underscore, and so it is never the underscore. *)
Theorem ParseTransition_fields order :
  order ≡ₚ directionTable →
  ParseTransition order "1>2" = Ok (mkTransition "Q2" Right (rune_of "1")) ∧
  ParseTransition order "1<3" = Ok (mkTransition "Q3" Left (rune_of "1")) ∧
  ParseTransition order "1.2" = Ok (mkTransition "Q2" Stay (rune_of "1")) ∧
  ParseTransition order "" = Err ErrParseTransition ∧
  ParseTransition order "Q2" = Err ErrParseTransition ∧
  ParseTransition order "Q2>" = Err ErrParseTransition ∧
  ParseTransition order "1!2" = Err ErrParseTransition ∧
  ParseTransition order "_>2" = Ok (mkTransition "Q2" Right (rune_of " ")) ∧
  ∀ field t,
    ParseTransition order field = Ok t →
    Write t ≠ rune_of "_" ∧
    ∃ sep dir f0 f1,
      (sep, dir) ∈ directionTable ∧ Split field sep = [f0; f1] ∧
      f0 ≠ EmptyString ∧ f1 ≠ EmptyString ∧
      NextState t = String "Q" f1 ∧ Move t = dir ∧
      Write t = (if (utf8.DecodeRuneInString f0).1 =? rune_of "_"
                 then rune_of " " else (utf8.DecodeRuneInString f0).1).
Proof.
  intros Hp.
  assert (∀ field t, ParseTransition order field = Ok t →
    Write t ≠ rune_of "_" ∧
    ∃ sep dir f0 f1,
      (sep, dir) ∈ directionTable ∧ Split field sep = [f0; f1] ∧
      f0 ≠ EmptyString ∧ f1 ≠ EmptyString ∧
      NextState t = String "Q" f1 ∧ Move t = dir ∧
      Write t = (if (utf8.DecodeRuneInString f0).1 =? rune_of "_"
                 then rune_of " " else (utf8.DecodeRuneInString f0).1)) as Hgen.
  { intros field t Hok.
    destruct (ParseTransition_Ok _ _ _ Hok)
      as (sep & dir & f0 & f1 & Hin & Hs & H0 & H1 & Hq & Hm & Hw).
    split.
    - rewrite Hw. destruct (Z.eqb_spec (utf8.DecodeRuneInString f0).1 (rune_of "_"));
        [done|done].
    - exists sep, dir, f0, f1. rewrite <- Hp. done. }
  destruct (directionTable_orders order Hp) as [-> | [-> | [-> | [-> | [-> | ->]]]]];
    repeat (split; [vm_compute; reflexivity|]); exact Hgen.
Qed.

Lemma ParseTransition_fields_witness :
  directionTable ≡ₚ directionTable ∧
  ParseTransition directionTable "1>2" = Ok (mkTransition "Q2" Right (rune_of "1")).
Proof.
  split; [reflexivity|].
  exact (proj1 (ParseTransition_fields directionTable (reflexivity _))).
Defined.

(* ===================================================================== *)
(** * ReadCtx *)
(* ===================================================================== *)

(** A field in which at most one of the three separators occurs parses the
    same way in whatever order the separators are met. *)
Lemma ParseTransition_one_separator o1 o2 field :
  (length (separators_in field) ≤ 1)%nat →
  o1 ≡ₚ directionTable → o2 ≡ₚ directionTable →
  ParseTransition o1 field = ParseTransition o2 field.
Proof.
  intros Hone H1 H2. unfold separators_in, directionTable in Hone.
  rewrite !filter_cons, filter_nil in Hone. cbn [fst] in Hone.
  destruct (directionTable_orders o1 H1) as [-> | [-> | [-> | [-> | [-> | ->]]]]];
  destruct (directionTable_orders o2 H2) as [-> | [-> | [-> | [-> | [-> | ->]]]]];
  cbn [ParseTransition];
  destruct (ContainsRune field ">"), (ContainsRune field "<"),
           (ContainsRune field ".");
  repeat (case_decide; [|done]); simpl in Hone; try lia; reflexivity.
Qed.

Lemma read_row_ext ord1 ord2 states symbol fields i stateIndex program :
  (∀ f j, f ∈ fields → f ≠ EmptyString →
          ParseTransition (ord1 j) f = ParseTransition (ord2 j) f) →
  read_row ord1 states symbol fields i stateIndex program =
  read_row ord2 states symbol fields i stateIndex program.
Proof.
  revert i stateIndex program.
  induction fields as [|f fields IH]; intros i stateIndex program Hext; [done|].
  simpl. case_bool_decide as Hf.
  - apply IH. intros f' j Hin. apply Hext. by right.
  - rewrite (Hext f i) by (done || left).
    destruct (ParseTransition (ord2 i) f); [|done].
    destruct (states !! stateIndex); [|done].
    apply IH. intros f' j Hin. apply Hext. by right.
Qed.

Lemma read_lines_ext ord1 ord2 ctx k lines states inScope program :
  (∀ f k i, f ∈ table_fields lines inScope →
            ParseTransition (ord1 k i) f = ParseTransition (ord2 k i) f) →
  read_lines ord1 ctx k lines states inScope program =
  read_lines ord2 ctx k lines states inScope program.
Proof.
  revert k states inScope program.
  induction lines as [|line lines IH]; intros k states inScope program Hext; [done|].
  simpl in *. destruct (ctx k); [done|].
  destruct (Split line "009") as [|f0 fields1]; [by apply IH|].
  destruct inScope; simpl in *.
  - case_bool_decide; [by apply IH|].
    rewrite (read_row_ext (ord1 k) (ord2 k)).
    2:{ intros f j Hin Hne. apply Hext. apply elem_of_app. left.
        by apply list_elem_of_filter. }
    destruct (read_row (ord2 k) states _ fields1 1 0 program); [|done..].
    apply IH. intros f k' i Hin. apply Hext. apply elem_of_app. by right.
  - destruct (_ && _); by apply IH.
Qed.

(** Reading does not depend on the orders of the walks over
    [directionTable] when no field of the table rows holds two different
    separators. *)
Lemma ReadCtx_one_separator ord1 ord2 ctx text :
  ranges_table ord1 → ranges_table ord2 →
  (∀ f, f ∈ table_fields (scan (raw_lines text)).1 false →
        (length (separators_in f) ≤ 1)%nat) →
  ReadCtx ord1 ctx text = ReadCtx ord2 ctx text.
Proof.
  intros H1 H2 Hone. unfold ReadCtx.
  destruct (scan (raw_lines text)) as [lines scanErr]. simpl in Hone.
  rewrite (read_lines_ext ord1 ord2); [done|].
  intros f k i Hin. apply ParseTransition_one_separator; auto.
Qed.

(** C8: [ReadCtx] is not total. On a table whose header row names one
    state and whose row for the symbol '1' holds two transitions, the
    second transition is stored at [states[1]], past the end of the header
    list: the call panics, whatever the orders of the walks over
    [directionTable], and returns neither a program nor an error. On the
    same table with one transition in the row it returns the program. *)
Theorem ReadCtx_long_row_panics :
  ReadCtx (λ _ _, directionTable) Background text_long_row = None ∧
  (∀ ord, ranges_table ord → ReadCtx ord Background text_long_row = None) ∧
  ReadCtx (λ _ _, directionTable) Background
    (tab ++ "Q1" ++ nl ++ "1" ++ tab ++ "1>1" ++ nl)
  = Some (Ok {[ "Q1"%string :=
                  {[ rune_of "1" := mkTransition "Q1" Right (rune_of "1") ]} ]}).
Proof.
  split; [vm_compute; reflexivity|]. split; [|vm_compute; reflexivity].
  intros ord Hord.
  rewrite (ReadCtx_one_separator ord (λ _ _, directionTable));
    [vm_compute; reflexivity|done|by intros k i|].
  intros f Hin. vm_compute in Hin.
  repeat (apply elem_of_cons in Hin as [-> | Hin]; [vm_compute; lia|]).
  by apply elem_of_nil in Hin.
Qed.

(** C7: reading is not deterministic. The table has the symbol ['.'] in
    its alphabet; the only transition field of its row, [".>1"], follows
    the grammar of the specification and holds two separators. When
    [ParseTransition] meets ['>'] first the field parses (write '.', move
    right, go to Q1) and the read returns a program; when it meets ['.']
    first the symbol part is empty and the read fails with
    ParseTransition. Both orders are walks over [directionTable]. *)
Theorem ReadCtx_depends_on_the_walk :
  spec_transition_field ".>1" = true ∧
  table_fields (scan (raw_lines text_dot_symbol)).1 false = [".>1"%string] ∧
  ranges_table (λ _ _, directionTable) ∧
  ranges_table (λ _ _, reverse directionTable) ∧
  ReadCtx (λ _ _, directionTable) Background text_dot_symbol
  = Some (Ok {[ "Q1"%string :=
                  {[ rune_of "." := mkTransition "Q1" Right (rune_of ".") ]} ]}) ∧
  ReadCtx (λ _ _, reverse directionTable) Background text_dot_symbol
  = Some (Err ErrParseTransition).
Proof.
  split; [vm_compute; reflexivity|]. split; [vm_compute; reflexivity|].
  split; [by intros k i|]. split; [intros k i; apply reverse_Permutation|].
  split; vm_compute; reflexivity.
Qed.

(* ===================================================================== *)
(** * More about the engine *)
(* ===================================================================== *)

(** ** What a step keeps *)

Lemma step_same_config m h : same_config m (step m h).1.2.
Proof. destruct (step_spec m h); repeat split. Qed.

Lemma same_config_trans m1 m2 m3 :
  same_config m1 m2 → same_config m2 m3 → same_config m1 m3.
Proof.
  intros (?&?&?&?&?&?) (?&?&?&?&?&?). repeat split; congruence.
Qed.

Lemma exec_loop_same_config fuel ctx k m h r m' h' :
  exec_loop fuel ctx k m h = Some (r, m', h') → same_config m m'.
Proof.
  revert k m h. induction fuel as [|fuel IH]; intros k m h; [done|].
  simpl. destruct (ctx k); [intros [= <- <- <-]; by repeat split|].
  pose proof (step_same_config m h) as Hc.
  destruct (step m h) as [[[ok err] m1] h1]. simpl in Hc.
  destruct err as [e|]; [by intros [= <- <- <-]|].
  destruct ok; [|by intros [= <- <- <-]].
  intros Hrun. eapply same_config_trans; [exact Hc|]. by eapply IH.
Qed.

Lemma reset_same_config m1 m2 c l :
  same_config m1 m2 → reset m1 c l = reset m2 c l.
Proof.
  destruct m1, m2. intros (?&?&?&?&?&?); simpl in *. unfold reset. simpl.
  by subst.
Qed.

Lemma ExecCtx_same_config fuel ctx m (h : gmap positive (gmap Z Z)) c input r m' h' :
  ExecCtx fuel ctx m h c input = Some (r, m', h') → same_config m m'.
Proof.
  unfold ExecCtx. intros Hrun. apply exec_loop_same_config in Hrun.
  destruct m; exact Hrun.
Qed.

(** X1: A machine can be used again: a run never changes the configuration
    (start and terminal state, alphabet, program, limits), and what it
    leaves in the carriage, the state, the step counter and the tape does
    not show in the next run, which goes as it would on the machine as
    it was before. *)
Theorem ExecCtx_machine_is_reusable
    fuel ctx m (h : gmap positive (gmap Z Z)) c input r m' h' :
  ExecCtx fuel ctx m h c input = Some (r, m', h') →
  same_config m m' ∧
  ∀ fuel2 ctx2 (h2 : gmap positive (gmap Z Z)) c2 input2,
    ExecCtx fuel2 ctx2 m' h2 c2 input2 = ExecCtx fuel2 ctx2 m h2 c2 input2.
Proof.
  intros Hrun. pose proof (ExecCtx_same_config _ _ _ _ _ _ _ _ _ Hrun) as Hc.
  split; [exact Hc|]. intros fuel2 ctx2 h2 c2 input2.
  rewrite !ExecCtx_local. by rewrite (reset_same_config m m').
Qed.

Lemma ExecCtx_machine_is_reusable_witness :
  ExecCtx 3 Background
    (mkMachine (-1) 3 "Q0" "Q1" "Q0" {[ blank; rune_of "1" ]} increment 2 20 10)
    {[ 1%positive := ∅ ]} 0 1%positive =
  ExecCtx 3 Background
    (mkMachine 0 1 "" "Q1" "Q0" {[ blank; rune_of "1" ]} increment 0 20 10)
    {[ 1%positive := ∅ ]} 0 1%positive.
Proof.
  refine (proj2 (ExecCtx_machine_is_reusable 3 Background
    (mkMachine 0 1 "" "Q1" "Q0" {[ blank; rune_of "1" ]} increment 0 20 10)
    {[ 1%positive := ∅; 2%positive := {[ 0 := rune_of "1" ]} ]} 0 2%positive
    (Some 3%positive, None)
    (mkMachine (-1) 3 "Q0" "Q1" "Q0" {[ blank; rune_of "1" ]} increment 2 20 10)
    {[ 1%positive := ∅; 2%positive := {[ 0 := rune_of "1" ]};
       3%positive := ones (-1) 2 ]} _)
    3%nat Background {[ 1%positive := ∅ ]} 0 1%positive).
  vm_compute. reflexivity.
Defined.

(** ** Runs under a step limit end *)

Lemma exec_loop_ends fuel ctx k m h :
  (0 < maxSteps m)%N → (maxSteps m < 2 ^ 64)%N → (steps m < maxSteps m)%N →
  (N.to_nat (maxSteps m - steps m) ≤ fuel)%nat →
  is_Some (exec_loop fuel ctx k m h).
Proof.
  revert k m h. induction fuel as [|fuel IH]; intros k m h Hpos Hmax Hlt Hfuel;
    [lia|].
  simpl. destruct (ctx k); [eauto|].
  destruct (step_spec m h) as [| | | |t Hl Hn]; simpl; eauto.
  unfold verdict.
  change (maxTapeLength (apply_transition t m)) with (maxTapeLength m).
  change (maxSteps (apply_transition t m)) with (maxSteps m).
  change (steps (apply_transition t m)) with (wrap_uint (steps m + 1)).
  destruct (_ <=? _)%N; [eauto|].
  assert (wrap_uint (steps m + 1) = (steps m + 1)%N) as Hw.
  { unfold wrap_uint. apply N.mod_small. lia. }
  rewrite Hw.
  destruct (N.leb_spec (maxSteps m) (steps m + 1)) as [Hle|Hgt].
  - apply N.ltb_lt in Hpos. rewrite Hpos. simpl. eauto.
  - rewrite andb_false_r. apply IH; simpl; try done; rewrite ?Hw; lia.
Qed.

(** X2: With a step limit every run ends: [maxSteps] turns of the loop are
    enough for [ExecCtx] to return, whatever the program, the input and
    the tape limit. *)
Theorem ExecCtx_ends_within_maxSteps
    fuel ctx m (h : gmap positive (gmap Z Z)) c input :
  (0 < maxSteps m)%N → (maxSteps m < 2 ^ 64)%N →
  (N.to_nat (maxSteps m) ≤ fuel)%nat →
  is_Some (ExecCtx fuel ctx m h c input).
Proof.
  intros Hpos Hmax Hfuel. unfold ExecCtx.
  apply exec_loop_ends; simpl; try done. by rewrite N.sub_0_r.
Qed.

Lemma ExecCtx_ends_within_maxSteps_witness :
  is_Some (ExecCtx 10 Background
    (mkMachine 0 1 "" "Q1" "Q0" {[ blank ]} swing 0 10000 10)
    {[ 1%positive := ∅ ]} 0 1%positive).
Proof.
  apply ExecCtx_ends_within_maxSteps; [reflexivity|reflexivity|].
  change (N.to_nat 10 ≤ 10)%nat. vm_compute. lia.
Defined.

(** ** What a returned tape satisfies *)




(** ** The errors of a run *)

Lemma step_errors m h e :
  (step m h).1.1.2 = Some e →
  e = ErrUnexpectedSymbol ∨ e = ErrTransitionNotFound ∨ e = ErrInfiniteLoop ∨
  e = ErrTapeOver ∨ e = ErrStepsExceeded.
Proof.
  destruct (step_spec m h) as [| | | |t Hl Hn]; simpl; try (intros [= <-]; tauto).
  destruct (verdict_cases (apply_transition t m) (write (Write t) m h))
    as [-> | [-> | ->]]; simpl; intros [= <-]; tauto.
Qed.

Lemma exec_loop_errors fuel ctx k m h res e m' h' :
  exec_loop fuel ctx k m h = Some ((res, Some e), m', h') →
  (e = ErrCancelled ∧ ∃ k', (k ≤ k')%nat ∧ ctx k' = true) ∨
  e = ErrUnexpectedSymbol ∨ e = ErrTransitionNotFound ∨ e = ErrInfiniteLoop ∨
  e = ErrTapeOver ∨ e = ErrStepsExceeded.
Proof.
  revert k m h. induction fuel as [|fuel IH]; intros k m h; [done|].
  simpl. destruct (ctx k) eqn:Hk; [intros [= _ <- _ _]; left; eauto|].
  pose proof (step_errors m h) as He.
  destruct (step m h) as [[[ok err] m1] h1]. simpl in He.
  destruct err as [e1|]; [intros [= _ <- _ _]; right; by apply He|].
  destruct ok; [|done].
  intros Hrun. destruct (IH _ _ _ Hrun) as [(-> & k' & Hle & Hc) | Hother];
    [left|by right]. split; [done|]. exists k'. split; [lia|done].
Qed.

(** X4: A run fails only with UnexpectedSymbol, TransitionNotFound,
    InfiniteLoop, TapeOver, StepsExceeded or the cancellation error, the
    last one only when the context was found cancelled at some check;
    [Exec], which runs under the background context, is never cancelled.
    A context that is cancelled before the first step stops the run
    before anything is read, also when the start state is the terminal
    state. *)
Theorem ExecCtx_errors :
  (∀ fuel ctx m (h : gmap positive (gmap Z Z)) c input res e m' h',
     ExecCtx fuel ctx m h c input = Some ((res, Some e), m', h') →
     (e = ErrCancelled ∧ ∃ k, ctx k = true) ∨
     e = ErrUnexpectedSymbol ∨ e = ErrTransitionNotFound ∨ e = ErrInfiniteLoop ∨
     e = ErrTapeOver ∨ e = ErrStepsExceeded) ∧
  (∀ fuel m (h : gmap positive (gmap Z Z)) c input res e m' h',
     Exec fuel m h c input = Some ((res, Some e), m', h') →
     e = ErrUnexpectedSymbol ∨ e = ErrTransitionNotFound ∨ e = ErrInfiniteLoop ∨
     e = ErrTapeOver ∨ e = ErrStepsExceeded) ∧
  (∀ fuel ctx m (h : gmap positive (gmap Z Z)) c input,
     ctx 0%nat = true →
     ∃ m' h', ExecCtx (S fuel) ctx m h c input
              = Some ((None, Some ErrCancelled), m', h') ∧
              steps m' = 0%N ∧ state m' = startState m ∧
              deref h' (tape m') = deref h input).
Proof.
  split; [|split].
  - intros fuel ctx m h c input res e m' h' Hrun. unfold ExecCtx in Hrun.
    destruct (exec_loop_errors _ _ _ _ _ _ _ _ _ Hrun) as [(-> & k & _ & Hk) | ?];
      [left; eauto|by right].
  - intros fuel m h c input res e m' h' Hrun. unfold Exec, ExecCtx in Hrun.
    destruct (exec_loop_errors _ _ _ _ _ _ _ _ _ Hrun) as [(-> & k & _ & Hk) | ?];
      done.
  - intros fuel ctx m h c input Hc. eexists _, _. unfold ExecCtx. simpl.
    rewrite Hc. split; [reflexivity|]. simpl.
    by rewrite deref_insert_eq, copy_tape_id.
Qed.

Lemma ExecCtx_errors_witness :
  ∃ m' h',
    ExecCtx 1 (λ _, true)
      (mkMachine 0 1 "" "Q0" "Q0" {[ blank ]} go_left 0 1 1)
      {[ 1%positive := ∅ ]} 0 1%positive
    = Some ((None, Some ErrCancelled), m', h') ∧
    steps m' = 0%N ∧ state m' = "Q0"%string ∧
    deref h' (tape m') =
    deref ({[ 1%positive := ∅ ]} : gmap positive (gmap Z Z)) 1.
Proof.
  exact (proj2 (proj2 ExecCtx_errors) 0%nat (λ _, true)
    (mkMachine 0 1 "" "Q0" "Q0" {[ blank ]} go_left 0 1 1)
    {[ 1%positive := ∅ ]} 0 1%positive eq_refl).
Defined.

(** ** NewMachine *)

Lemma NewMachine_inv order alph start term prog mtl ms
    (h : gmap positive (gmap Z Z)) m h1 :
  NewMachine order alph start term prog mtl ms h = (Ok m, h1) →
  start ≠ EmptyString ∧ term ≠ EmptyString ∧ mtl ≠ 0%N ∧
  Validate prog order ({[ blank ]} ∪ list_to_set (runes alph)) term = None ∧
  m = mkMachine 0 (alloc h) EmptyString start term
        ({[ blank ]} ∪ list_to_set (runes alph)) prog 0%N mtl ms ∧
  h1 = <[ alloc h := ∅ ]> h.
Proof.
  unfold NewMachine. repeat case_bool_decide; try done.
  destruct (Validate _ _ _ _); [done|]. by intros [= <- <-].
Qed.

(** X5: [NewMachine] checks, in this order, the start state, the terminal
    state, the tape limit and the program. It succeeds exactly when both
    state names are non-empty, the tape limit is not zero and every
    entry of the program passes validation against the alphabet with the
    blank added, in whatever order the program is walked; the machine it
    returns has an empty tape of its own, allocated for it. When it fails
    it allocates nothing, and the error is the one of the first check
    that fails. *)
Theorem NewMachine_checks order alph start term prog mtl ms
    (h : gmap positive (gmap Z Z)) :
  ranges_over prog order →
  ((∃ m h1, NewMachine order alph start term prog mtl ms h = (Ok m, h1)) ↔
   start ≠ EmptyString ∧ term ≠ EmptyString ∧ mtl ≠ 0%N ∧
   ∀ q sym t, entry prog q sym t →
     Validate_entry prog ({[ blank ]} ∪ list_to_set (runes alph)) term t = None) ∧
  (∀ m h1,
     NewMachine order alph start term prog mtl ms h = (Ok m, h1) →
     m = mkMachine 0 (alloc h) EmptyString start term
           ({[ blank ]} ∪ list_to_set (runes alph)) prog 0%N mtl ms ∧
     h !! tape m = None ∧ h1 = <[ tape m := ∅ ]> h) ∧
  (∀ e h1,
     NewMachine order alph start term prog mtl ms h = (Err e, h1) →
     h1 = h ∧
     (start = EmptyString → e = ErrStartStateEmpty) ∧
     (start ≠ EmptyString → term = EmptyString → e = ErrTerminalStateEmpty) ∧
     (start ≠ EmptyString → term ≠ EmptyString → mtl = 0%N →
        e = ErrInvalidMaxTapeLength) ∧
     (start ≠ EmptyString → term ≠ EmptyString → mtl ≠ 0%N →
        ∃ q sym t, entry prog q sym t ∧
          Validate_entry prog ({[ blank ]} ∪ list_to_set (runes alph)) term t
          = Some e)).
Proof.
  intros Hr. split; [|split].
  - split.
    + intros (m & h1 & Hnew).
      destruct (NewMachine_inv _ _ _ _ _ _ _ _ _ _ Hnew) as (? & ? & ? & Hv & _).
      repeat split; try done. by apply (Validate_None _ _ _ _ Hr).
    + intros (? & ? & ? & Hall). eexists _, _.
      apply NewMachine_Ok; try done. by apply (Validate_None _ _ _ _ Hr).
  - intros m h1 Hnew.
    destruct (NewMachine_inv _ _ _ _ _ _ _ _ _ _ Hnew) as (_ & _ & _ & _ & -> & ->).
    split; [done|]. split; [apply alloc_fresh|done].
  - intros e h1. unfold NewMachine.
    repeat case_bool_decide; try (intros [= <- <-]; repeat split; done).
    destruct (Validate _ _ _ _) as [e'|] eqn:Hv; [|done].
    intros [= <- <-]. repeat split; try done.
    intros _ _ _. by apply (Validate_Some _ _ _ _ _ Hr).
Qed.

Lemma NewMachine_checks_witness :
  ranges_over dangling (range_order dangling) ∧
  ∀ e h1,
    NewMachine (range_order dangling) "" "" "" dangling 0 0 ∅ = (Err e, h1) →
    h1 = ∅ ∧ e = ErrStartStateEmpty.
Proof.
  split; [apply range_order_ranges_over|]. intros e h1 Hnew.
  destruct (NewMachine_checks (range_order dangling) "" "" "" dangling 0 0 ∅
              (range_order_ranges_over dangling)) as (_ & _ & Herr).
  destruct (Herr e h1 Hnew) as (-> & He & _). split; [done|]. by apply He.
Defined.

(** ** The symbols on the tape *)

Lemma Validate_entry_None_write tp a term t :
  Validate_entry tp a term t = None → Write t ∈ a ∧ valid_move t.
Proof.
  unfold Validate_entry, valid_move.
  repeat case_bool_decide; simpl; try done; intros _; split; tauto.
Qed.

Lemma step_over_alphabet m h :
  writes_in_alphabet m →
  over_alphabet (alphabet m) (deref h (tape m)) →
  over_alphabet (alphabet m) (deref (step m h).2 (tape m)).
Proof.
  intros Hw Hover. destruct (step_spec m h) as [| | | |t Hl Hn]; simpl; try done.
  rewrite deref_write. intros i sym.
  destruct (decide (i = carriage m)) as [->|Hne].
  - rewrite lookup_insert_eq. intros [= <-].
    destruct Hl as (_ & _ & Hl). unfold lookup_transition in Hl.
    destruct (program m !! state m) as [row|] eqn:Hrow; [|done].
    apply (Hw (state m) (read m h) t). by exists row.
  - rewrite lookup_insert_ne by done. apply Hover.
Qed.

Lemma exec_loop_over_alphabet fuel ctx k m h res err m' h' :
  writes_in_alphabet m → blank ∈ alphabet m →
  over_alphabet (alphabet m) (deref h (tape m)) →
  exec_loop fuel ctx k m h = Some ((res, err), m', h') →
  err ≠ Some ErrUnexpectedSymbol ∧
  over_alphabet (alphabet m) (deref h' (tape m')).
Proof.
  revert k m h. induction fuel as [|fuel IH]; intros k m h Hw Hb Hover; [done|].
  simpl. destruct (ctx k); [by intros [= <- <- <- <-]|].
  pose proof (step_over_alphabet m h Hw Hover) as Hover1.
  pose proof (step_same_config m h) as (_ & _ & Ha & Hp & _).
  pose proof (step_tape m h) as Htape.
  destruct (step_spec m h) as [| Hq Hnot | | |t Hl Hn]; simpl in *;
    try (intros [= <- <- <- <-]; done).
  - destruct Hnot. unfold read. destruct (deref h (tape m) !! carriage m) eqn:Hc;
      [by eapply Hover|done].
  - destruct (verdict_cases (apply_transition t m) (write (Write t) m h))
      as [-> | [-> | ->]]; try (intros [= <- <- <- <-]; done).
    intros Hrun. apply IH in Hrun; [done|..]; simpl; try done.
Qed.

(** X6: On a machine built by [NewMachine], a run on an input whose symbols
    all belong to the alphabet keeps every symbol of the tape in the
    alphabet: it never fails with UnexpectedSymbol, and the tape it ends
    with, returned or not, is over the alphabet. A symbol outside the
    alphabet under the carriage of the first step, on the other hand,
    makes that step fail with UnexpectedSymbol. *)
Theorem constructed_machine_keeps_tape_in_alphabet
    order alph start term prog mtl ms (h0 : gmap positive (gmap Z Z)) m h1 :
  ranges_over prog order →
  NewMachine order alph start term prog mtl ms h0 = (Ok m, h1) →
  (∀ fuel ctx (h : gmap positive (gmap Z Z)) c input res err m' h',
     over_alphabet (alphabet m) (deref h input) →
     ExecCtx fuel ctx m h c input = Some ((res, err), m', h') →
     err ≠ Some ErrUnexpectedSymbol ∧
     over_alphabet (alphabet m) (deref h' (tape m'))) ∧
  (∀ fuel ctx (h : gmap positive (gmap Z Z)) c input sym,
     start ≠ term → ctx 0%nat = false →
     deref h input !! c = Some sym → sym ∉ alphabet m →
     ∃ m' h', ExecCtx (S fuel) ctx m h c input
              = Some ((None, Some ErrUnexpectedSymbol), m', h')).
Proof.
  intros Hr Hnew.
  destruct (NewMachine_inv _ _ _ _ _ _ _ _ _ _ Hnew) as (_ & _ & _ & Hv & -> & _).
  split.
  - intros fuel ctx h c input res err m' h' Hover Hrun. unfold ExecCtx in Hrun.
    apply exec_loop_over_alphabet in Hrun; simpl; try done.
    + intros q sym t Hent. simpl in Hent.
      apply (Validate_entry_None_write prog _ term).
      by apply (proj1 (Validate_None _ _ _ _ Hr) Hv q sym).
    + apply elem_of_union_l. by apply elem_of_singleton.
    + by rewrite deref_insert_eq, copy_tape_id.
  - intros fuel ctx h c input sym Hne Hc Hsym Hnot. eexists _, _.
    unfold ExecCtx. cbn [exec_loop]. rewrite Hc.
    unfold step, read. cbn [set_tape set_steps set_state set_carriage tape
      carriage state startState terminalState alphabet].
    rewrite deref_insert_eq, copy_tape_id, Hsym.
    rewrite bool_decide_eq_false_2 by done.
    rewrite bool_decide_eq_false_2 by done. reflexivity.
Qed.

Lemma constructed_machine_keeps_tape_in_alphabet_witness :
  ∃ m' h',
    ExecCtx 1 Background
      (mkMachine 0 1 "" "Q1" "Q0" ({[ blank ]} ∪ list_to_set (runes "1"))
         increment 0 20 10)
      {[ 1%positive := ∅; 2%positive := {[ 0 := rune_of "x" ]} ]} 0 2%positive
    = Some ((None, Some ErrUnexpectedSymbol), m', h').
Proof.
  assert (NewMachine (range_order increment) "1" "Q1" "Q0" increment 20 10 ∅
          = (Ok (mkMachine 0 1 "" "Q1" "Q0" ({[ blank ]} ∪ list_to_set (runes "1"))
                   increment 0 20 10),
             {[ 1%positive := ∅ ]})) as Hnew by (vm_compute; reflexivity).
  refine (proj2 (constructed_machine_keeps_tape_in_alphabet
            (range_order increment) "1" "Q1" "Q0" increment 20 10 ∅ _ _
            (range_order_ranges_over increment) Hnew)
          0%nat Background
          {[ 1%positive := ∅; 2%positive := {[ 0 := rune_of "x" ]} ]}
          0 2%positive (rune_of "x") _ _ _ _).
  - done.
  - reflexivity.
  - vm_compute. reflexivity.
  - apply (bool_decide_unpack _). vm_compute. exact I.
Defined.

(** ** The tape helpers *)



Lemma wrap_int_is_int z : is_int (wrap_int z).
Proof.
  unfold is_int, wrap_int.
  pose proof (Z.mod_pos_bound (z + 2 ^ 63) (2 ^ 64) ltac:(lia)). lia.
Qed.

Lemma wrap_int_id z : is_int z → wrap_int z = z.
Proof.
  unfold is_int, wrap_int. intros Hz. rewrite Z.mod_small; lia.
Qed.

Lemma wrap_int_add z d : wrap_int (wrap_int z + d) = wrap_int (z + d).
Proof.
  unfold wrap_int.
  replace (((z + 2 ^ 63) mod 2 ^ 64 - 2 ^ 63 + d + 2 ^ 63))
    with ((z + 2 ^ 63) mod 2 ^ 64 + d) by lia.
  replace (z + d + 2 ^ 63) with ((z + 2 ^ 63) + d) by lia.
  by rewrite Zplus_mod_idemp_l.
Qed.

Lemma step_carriage_is_int m h : is_int (carriage m) → is_int (carriage (step m h).1.2).
Proof.
  intros Hc. destruct (step_spec m h); simpl; try done. apply wrap_int_is_int.
Qed.

Lemma exec_loop_carriage_is_int fuel ctx k m h r m' h' :
  is_int (carriage m) →
  exec_loop fuel ctx k m h = Some (r, m', h') → is_int (carriage m').
Proof.
  revert k m h. induction fuel as [|fuel IH]; intros k m h Hc; [done|].
  simpl. destruct (ctx k); [by intros [= <- <- <-]|].
  pose proof (step_carriage_is_int m h Hc) as Hc1.
  destruct (step m h) as [[[ok err] m1] h1]. simpl in Hc1.
  destruct err as [e|]; [by intros [= <- <- <-]|].
  destruct ok; [|by intros [= <- <- <-]]. by apply IH.
Qed.

(** X8: [move] adds the direction to the carriage in [int] arithmetic: within
    the range of [int] it is the plain sum, at the two ends it wraps
    around, from the least cell to the greatest on a move to the left and
    back on a move to the right. So a move to the left and a move to the
    right undo each other everywhere, a Stay leaves the carriage, and the
    carriage of a run that starts on an [int] is an [int] at the end. *)
Theorem move_wraps_around :
  (∀ m d, is_int (carriage m + d) → carriage (move d m) = carriage m + d) ∧
  (∀ m, carriage m = - 2 ^ 63 → carriage (move Left m) = 2 ^ 63 - 1) ∧
  (∀ m, carriage m = 2 ^ 63 - 1 → carriage (move Right m) = - 2 ^ 63) ∧
  (∀ m, is_int (carriage m) →
     move Right (move Left m) = m ∧ move Left (move Right m) = m ∧
     move Stay m = m) ∧
  (∀ fuel ctx m (h : gmap positive (gmap Z Z)) c input r m' h',
     is_int c →
     ExecCtx fuel ctx m h c input = Some (r, m', h') → is_int (carriage m')).
Proof.
  split; [|split; [|split; [|split]]].
  - intros m d Hd. simpl. by apply wrap_int_id.
  - intros m Hc. simpl. rewrite Hc. reflexivity.
  - intros m Hc. simpl. rewrite Hc. reflexivity.
  - intros m Hc. unfold move. destruct m as [c ? ? ? ? ? ? ? ? ?]. simpl in *.
    unfold set_carriage; simpl. rewrite !wrap_int_add. unfold Left, Right, Stay.
    replace (c + -1 + 1) with c by lia. replace (c + 1 + -1) with c by lia.
    replace (c + 0) with c by lia. by rewrite wrap_int_id.
  - intros fuel ctx m h c input r m' h' Hc Hrun. unfold ExecCtx in Hrun.
    by apply exec_loop_carriage_is_int in Hrun.
Qed.

Lemma move_wraps_around_witness :
  carriage (move Left
    (mkMachine (- 2 ^ 63) 1 "Q1" "Q1" "Q0" {[ blank ]} go_left 0 10 10))
  = 2 ^ 63 - 1.
Proof.
  exact (proj1 (proj2 move_wraps_around)
    (mkMachine (- 2 ^ 63) 1 "Q1" "Q1" "Q0" {[ blank ]} go_left 0 10 10) eq_refl).
Defined.

(** ** More about Program.Validate *)

Lemma Validate_entry_errors tp a term t e :
  Validate_entry tp a term t = Some e →
  e = ErrInvalidMoveDirection ∨ e = ErrUnexpectedSymbol ∨ e = ErrStateNotFound.
Proof.
  unfold Validate_entry. repeat case_bool_decide; simpl; try (intros [= <-]; tauto);
    try done.
  all: destruct (tp !! NextState t); [done|]; intros [= <-]; tauto.
Qed.

Lemma Validate_entry_alphabet_growth tp (a a' : gset Z) term t :
  a ⊆ a' → Validate_entry tp a term t = None → Validate_entry tp a' term t = None.
Proof.
  intros Hsub Hv. unfold Validate_entry in *.
  destruct (_ && _); [done|].
  destruct (bool_decide (Write t ∈ a)) eqn:Ha; simpl in Hv; [|done].
  apply bool_decide_eq_true in Ha.
  rewrite (bool_decide_eq_true_2 (Write t ∈ a')) by (by apply Hsub).
  exact Hv.
Qed.

(** X9: Validation fails only with InvalidMoveDirection, UnexpectedSymbol or
    StateNotFound, in whatever order the program is walked. A program
    that is valid for an alphabet is valid for every larger alphabet; the
    symbols under which the transitions are filed are not checked, so
    that a program with a row for a symbol outside the alphabet is
    valid; and the empty program is valid. *)
Theorem Validate_outcomes :
  (∀ tp order a term e,
     Validate tp order a term = Some e →
     e = ErrInvalidMoveDirection ∨ e = ErrUnexpectedSymbol ∨ e = ErrStateNotFound) ∧
  (∀ tp o1 o2 (a a' : gset Z) term,
     ranges_over tp o1 → ranges_over tp o2 → a ⊆ a' →
     Validate tp o1 a term = None → Validate tp o2 a' term = None) ∧
  (∀ order q (sym : Z) (a : gset Z) term d,
     ranges_over {[ q := {[ sym := mkTransition term d blank ]} ]} order →
     valid_move (mkTransition term d blank) → blank ∈ a →
     Validate {[ q := {[ sym := mkTransition term d blank ]} ]} order a term = None) ∧
  (∀ order a term, ranges_over ∅ order → Validate ∅ order a term = None).
Proof.
  split; [|split; [|split]].
  - intros tp order a term e. rewrite Validate_head. intros Hh.
    assert (e ∈ violations tp a term (entries_of order)) as Hin.
    { destruct (violations tp a term (entries_of order)); simplify_eq/=. left. }
    apply elem_of_violations in Hin as (sym & t & _ & He).
    by eapply Validate_entry_errors.
  - intros tp o1 o2 a a' term H1 H2 Hsub Hv.
    apply (Validate_None _ _ _ _ H2). intros q sym t Hent.
    apply (Validate_entry_alphabet_growth _ a); [done|].
    by apply (proj1 (Validate_None _ _ _ _ H1) Hv q sym).
  - intros order q sym a term d Hr Hmove Hb.
    apply (Validate_None _ _ _ _ Hr). intros q' sym' t (row & Hrow & Ht).
    apply lookup_singleton_Some in Hrow as [_ <-].
    apply lookup_singleton_Some in Ht as [_ <-].
    destruct (Validate_entry_cases {[ q := {[ sym := mkTransition term d blank ]} ]}
                a term (mkTransition term d blank)) as (_ & _ & H3 & _).
    by apply H3.
  - intros order a term Hr. apply (Validate_None _ _ _ _ Hr).
    intros q sym t (row & Hrow & _). by rewrite lookup_empty in Hrow.
Qed.

Lemma Validate_outcomes_witness :
  Validate go_left (range_order go_left) {[ blank; rune_of "1" ]} "Q0" = None.
Proof.
  refine (proj1 (proj2 Validate_outcomes) go_left (range_order go_left)
    (range_order go_left) {[ blank ]} {[ blank; rune_of "1" ]} "Q0"
    (range_order_ranges_over go_left) (range_order_ranges_over go_left) _ _).
  - apply union_subseteq_l.
  - vm_compute. reflexivity.
Defined.

(* ===================================================================== *)
(** * More about the reader *)
(* ===================================================================== *)

(** ** Splitting a field *)

Lemma ContainsRune_app s1 s2 c :
  ContainsRune (s1 +:+ s2) c = ContainsRune s1 c || ContainsRune s2 c.
Proof.
  induction s1 as [|a s1 IH]; [done|]. simpl. rewrite IH. by rewrite orb_assoc.
Qed.

Lemma Split_not_nil s c : Split s c ≠ [].
Proof.
  destruct s as [|a s]; [done|]. simpl. case_bool_decide; [done|].
  by destruct (Split s c).
Qed.

Lemma Split_absent s c : ContainsRune s c = false → Split s c = [s].
Proof.
  induction s as [|a s IH]; [done|]. simpl. intros Hc.
  apply orb_false_elim in Hc as [Ha Hs]. rewrite Ha. by rewrite IH.
Qed.

Lemma Split_at s1 s2 c :
  ContainsRune s1 c = false →
  Split (s1 +:+ String c s2) c = s1 :: Split s2 c.
Proof.
  induction s1 as [|a s1 IH]; simpl.
  - intros _. by rewrite bool_decide_eq_true_2.
  - intros Hc. apply orb_false_elim in Hc as [Ha Hs]. rewrite Ha. by rewrite IH.
Qed.

Lemma Split_one s c f : Split s c = [f] → s = f ∧ ContainsRune s c = false.
Proof.
  revert f. induction s as [|a s IH]; intros f; simpl.
  - by intros [= <-].
  - case_bool_decide as Ha.
    + intros [= _ Hs]. by destruct (Split_not_nil s c).
    + destruct (Split s c) as [|piece pieces] eqn:Hs; [by destruct (Split_not_nil s c)|].
      intros [= <- ->]. destruct (IH piece eq_refl) as [-> Hc].
      by rewrite Hc.
Qed.

Lemma Split_two s c f0 f1 :
  Split s c = [f0; f1] →
  s = f0 +:+ String c f1 ∧ ContainsRune f0 c = false ∧ ContainsRune f1 c = false.
Proof.
  revert f0. induction s as [|a s IH]; intros f0; simpl; [done|].
  case_bool_decide as Ha.
  - intros [= <- Hs]. apply Split_one in Hs as [-> Hc]. by subst a.
  - destruct (Split s c) as [|piece pieces] eqn:Hs; [done|].
    intros [= <- ->]. destruct (IH piece eq_refl) as (-> & H0 & H1).
    simpl. by rewrite (bool_decide_eq_false_2 _ Ha), H0.
Qed.

(** ** ParseTransition on fields with one separator *)

Lemma directionTable_first sep dir :
  (sep, dir) ∈ directionTable →
  ∃ rest, (sep, dir) :: rest ≡ₚ directionTable.
Proof.
  unfold directionTable. intros Hin.
  apply elem_of_cons in Hin as [[= -> ->] | Hin]; [by eexists|].
  apply elem_of_cons in Hin as [[= -> ->] | Hin];
    [eexists; apply perm_swap|].
  apply elem_of_cons in Hin as [[= -> ->] | Hin]; [|by apply elem_of_nil in Hin].
  exists [(">"%char, Right); ("<"%char, Left)].
  apply (Permutation_cons_append [(">"%char, Right); ("<"%char, Left)]).
Qed.

(** X10: A field in which at most one of the three separators occurs parses,
    in whatever order the separators are met, exactly when it is a
    non-empty symbol part, one separator and a non-empty state number,
    with no second occurrence of the separator; the transition is then
    the state "Q" followed by the number, the direction of the
    separator, and the first rune of the symbol part, the blank standing
    for the underscore. Every other such field fails, and a parse never
    fails with another error than ParseTransition. *)
Theorem ParseTransition_one_separator_fields order field :
  order ≡ₚ directionTable →
  (length (separators_in field) ≤ 1)%nat →
  (∀ t,
     ParseTransition order field = Ok t ↔
     ∃ sep dir f0 f1,
       (sep, dir) ∈ directionTable ∧ field = f0 +:+ String sep f1 ∧
       f0 ≠ EmptyString ∧ f1 ≠ EmptyString ∧
       ContainsRune f0 sep = false ∧ ContainsRune f1 sep = false ∧
       t = {| NextState := String "Q" f1; Move := dir;
              Write := if (utf8.DecodeRuneInString f0).1 =? rune_of "_"
                       then rune_of " " else (utf8.DecodeRuneInString f0).1 |}) ∧
  (∀ e, ParseTransition order field = Err e → e = ErrParseTransition).
Proof.
  intros Hp Hone. split.
  - intros t. split.
    + intros Hok. destruct (ParseTransition_Ok _ _ _ Hok)
        as (sep & dir & f0 & f1 & Hin & Hs & H0 & H1 & Hq & Hm & Hw).
      apply Split_two in Hs as (-> & Hc0 & Hc1).
      exists sep, dir, f0, f1. rewrite <- Hp. repeat split; try done.
      destruct t; simpl in *. by subst.
    + intros (sep & dir & f0 & f1 & Hin & -> & H0 & H1 & Hc0 & Hc1 & ->).
      destruct (directionTable_first sep dir Hin) as [rest Hrest].
      rewrite (ParseTransition_one_separator order ((sep, dir) :: rest)) by done.
      cbn [ParseTransition]. rewrite ContainsRune_app. simpl.
      rewrite (bool_decide_eq_true_2 (sep = sep)) by done.
      rewrite orb_true_r. rewrite (Split_at _ _ _ Hc0), (Split_absent _ _ Hc1).
      by rewrite !bool_decide_eq_false_2.
  - intros e. clear. induction order as [|[sep dir] order IH]; simpl.
    + by intros [= <-].
    + destruct (ContainsRune field sep); [|done].
      destruct (Split field sep) as [|f0 [|f1 [|]]]; try (by intros [= <-]).
      destruct (_ || _); [by intros [= <-]|done].
Qed.

Lemma ParseTransition_one_separator_fields_witness :
  ParseTransition (reverse directionTable) "_<17"
  = Ok {| NextState := "Q17"; Move := Left; Write := rune_of " " |}.
Proof.
  apply (proj1 (ParseTransition_one_separator_fields (reverse directionTable) "_<17"
    (reverse_Permutation _) ltac:(vm_compute; lia))).
  exists "<"%char, Left, "_"%string, "17"%string.
  split; [right; left|]. by repeat split.
Defined.

(** ** The errors of a read *)

Lemma ParseTransition_Err order field e :
  ParseTransition order field = Err e → e = ErrParseTransition.
Proof.
  induction order as [|[sep dir] order IH]; simpl.
  - by intros [= <-].
  - destruct (ContainsRune field sep); [|done].
    destruct (Split field sep) as [|f0 [|f1 [|]]]; try (by intros [= <-]).
    destruct (_ || _); [by intros [= <-]|done].
Qed.

Lemma read_row_Return ord states symbol fields i stateIndex program r :
  read_row ord states symbol fields i stateIndex program = Return r →
  r = Err ErrParseTransition.
Proof.
  revert i stateIndex program.
  induction fields as [|f fields IH]; intros i stateIndex program; [done|].
  simpl. case_bool_decide; [apply IH|].
  destruct (ParseTransition (ord i) f) as [t|e] eqn:Hp.
  - destruct (states !! stateIndex); [apply IH|done].
  - intros [= <-]. by rewrite (ParseTransition_Err _ _ _ Hp).
Qed.

Lemma read_lines_Return ord ctx k lines states inScope program r :
  read_lines ord ctx k lines states inScope program = Return r →
  r = Err ErrParseTransition ∨
  (r = Err ErrCancelled ∧ ∃ k', (k ≤ k')%nat ∧ ctx k' = true).
Proof.
  revert k states inScope program.
  induction lines as [|line lines IH]; intros k states inScope program; [done|].
  assert (∀ states inScope program,
    read_lines ord ctx (S k) lines states inScope program = Return r →
    r = Err ErrParseTransition ∨
    (r = Err ErrCancelled ∧ ∃ k', (k ≤ k')%nat ∧ ctx k' = true)) as IH'.
  { intros st sc p Hr. destruct (IH _ _ _ _ Hr) as [? | (? & k' & ? & ?)];
      [by left|right]. split; [done|]. exists k'. split; [lia|done]. }
  simpl. destruct (ctx k) eqn:Hk; [intros [= <-]; right; eauto|].
  destruct (Split line "009") as [|f0 fields1]; [apply IH'|].
  destruct inScope; simpl.
  - case_bool_decide; [apply IH'|].
    destruct (read_row _ _ _ _ _ _ _) eqn:Hrow; [apply IH'| |done].
    intros [= <-]. left. by eapply read_row_Return.
  - destruct (_ && _); apply IH'.
Qed.

Lemma read_lines_no_header ord ctx k lines states program :
  (∀ k, ctx k = false) →
  (∀ line, line ∈ lines → is_header line = false) →
  read_lines ord ctx k lines states false program = Next program.
Proof.
  intros Hctx. revert k. induction lines as [|line lines IH]; intros k Hno; [done|].
  simpl. rewrite Hctx.
  pose proof (Hno line ltac:(left)) as Hline. unfold is_header in Hline.
  destruct (Split line "009") as [|f0 fields1];
    [apply IH; intros; apply Hno; by right|].
  simpl. simpl in Hline. rewrite Hline. apply IH. intros; apply Hno; by right.
Qed.

(** X11: A read fails only with ParseTransition, NoTransitions, the wrapped
    error of the scanner or the cancellation error, the last one only
    when the context was found cancelled at some line. The context is
    looked at once per line: a text with no line at all gives
    NoTransitions even under a cancelled context. A text none of whose
    lines passes for a header row never reaches a table row: read under a
    context that is not cancelled it gives NoTransitions, or the error of
    the scanner when a line is too long. *)
Theorem ReadCtx_errors :
  (∀ ord ctx text e,
     ReadCtx ord ctx text = Some (Err e) →
     e = ErrParseTransition ∨ e = ErrNoTransitions ∨ e = ErrReadProgram ∨
     (e = ErrCancelled ∧ ∃ k, ctx k = true)) ∧
  (∀ ord ctx, ReadCtx ord ctx "" = Some (Err ErrNoTransitions)) ∧
  (∀ ord ctx text,
     (∀ k, ctx k = false) →
     (∀ line, line ∈ (scan (raw_lines text)).1 → is_header line = false) →
     ReadCtx ord ctx text =
       Some (Err (if (scan (raw_lines text)).2
                  then ErrReadProgram else ErrNoTransitions))).
Proof.
  split; [|split].
  - intros ord ctx text e. unfold ReadCtx.
    destruct (scan (raw_lines text)) as [lines scanErr].
    destruct (read_lines ord ctx 0 lines [] false ∅) as [p|r|] eqn:Hread; [| |done].
    + destruct scanErr; [intros [= <-]; tauto|].
      case_bool_decide; [intros [= <-]; tauto|done].
    + intros [= ->].
      destruct (read_lines_Return _ _ _ _ _ _ _ _ Hread)
        as [[= <-] | ([= <-] & k & _ & Hk)]; [tauto|].
      right; right; right. eauto.
  - intros ord ctx. reflexivity.
  - intros ord ctx text Hctx Hno. unfold ReadCtx.
    destruct (scan (raw_lines text)) as [lines scanErr]. simpl in *.
    rewrite read_lines_no_header by done.
    destruct scanErr; [done|]. by rewrite bool_decide_eq_true_2.
Qed.

Lemma ReadCtx_errors_witness :
  ReadCtx (λ _ _, directionTable) Background "Q1 Q2" =
  Some (Err (if (scan (raw_lines "Q1 Q2")).2 then ErrReadProgram else ErrNoTransitions)).
Proof.
  apply (proj2 (proj2 ReadCtx_errors)); [done|].
  intros line Hin. vm_compute in Hin.
  apply elem_of_cons in Hin as [-> | Hin]; [vm_compute; reflexivity|].
  by apply elem_of_nil in Hin.
Defined.

(** ** The lines before the header row *)

Lemma read_lines_shift ord ctx k lines states inScope program :
  read_lines ord ctx (S k) lines states inScope program =
  read_lines (λ k, ord (S k)) (λ k, ctx (S k)) k lines states inScope program.
Proof.
  revert k states inScope program.
  induction lines as [|line lines IH]; intros k states inScope program; [done|].
  simpl. destruct (ctx (S k)); [done|].
  destruct (Split line "009") as [|f0 fields1]; [apply IH|].
  destruct inScope; simpl.
  - case_bool_decide; [apply IH|].
    destruct (read_row _ _ _ _ _ _ _); [apply IH|done..].
  - destruct (_ && _); apply IH.
Qed.

Lemma raw_lines_cons line text :
  ContainsRune line "010" = false →
  raw_lines (line +:+ nl +:+ text) = line :: raw_lines text.
Proof.
  intros Hc. unfold raw_lines.
  change (nl +:+ text) with (String "010" text).
  rewrite (Split_at _ _ _ Hc).
  destruct (Split text "010") as [|piece pieces] eqn:Hs;
    [by destruct (Split_not_nil text "010")|].
  change (last (line :: piece :: pieces)) with (last (piece :: pieces)).
  destruct (last (piece :: pieces)) as [[|]|]; done.
Qed.

(** X12: A first line that does not pass for a header row is skipped: the
    read goes on as the read of the rest of the text (with the context
    and the walks of the following lines). This is how the comment lines
    before the table are left out. *)
Theorem ReadCtx_skips_leading_line ord ctx line text :
  ContainsRune line "010" = false →
  (N.of_nat (String.length line) < MaxScanTokenSize)%N →
  is_header (dropCR line) = false →
  ctx 0%nat = false →
  ReadCtx ord ctx (line +:+ nl +:+ text) =
  ReadCtx (λ k, ord (S k)) (λ k, ctx (S k)) text.
Proof.
  intros Hnl Hlen Hhdr Hctx. unfold ReadCtx.
  rewrite (raw_lines_cons _ _ Hnl). cbn [scan].
  apply N.leb_gt in Hlen. rewrite Hlen.
  destruct (scan (raw_lines text)) as [lines scanErr].
  cbn [read_lines]. rewrite Hctx. unfold is_header in Hhdr.
  destruct (Split (dropCR line) "009") as [|f0 fields1].
  - by rewrite read_lines_shift.
  - cbn [negb]. cbv iota. rewrite Hhdr. by rewrite read_lines_shift.
Qed.

Lemma ReadCtx_skips_leading_line_witness :
  ReadCtx (λ _ _, directionTable) Background
    ("adds one. a -> b"%string +:+ nl +:+ text_long_row) =
  ReadCtx (λ _ _, directionTable) Background text_long_row.
Proof.
  by apply (ReadCtx_skips_leading_line (λ _ _, directionTable) Background
              "adds one. a -> b" text_long_row).
Defined.

(** ** What a parsed program looks like *)

Lemma ParseTransition_parsed order field t :
  (∀ sd, sd ∈ order → sd ∈ directionTable) →
  ParseTransition order field = Ok t → parsed_transition t.
Proof.
  intros Hsub Hok.
  destruct (ParseTransition_Ok _ _ _ Hok)
    as (sep & dir & f0 & f1 & Hin & _ & _ & H1 & Hq & Hm & Hw).
  split; [|split].
  - apply Hsub in Hin. unfold valid_move. rewrite Hm. unfold directionTable in Hin.
    repeat (apply elem_of_cons in Hin as [[= _ ->] | Hin]; [tauto|]).
    by apply elem_of_nil in Hin.
  - rewrite Hw. by destruct (Z.eqb_spec (utf8.DecodeRuneInString f0).1 (rune_of "_")).
  - by exists f1.
Qed.

Lemma read_row_well_parsed ord states symbol fields i stateIndex program program' :
  (∀ j sd, sd ∈ ord j → sd ∈ directionTable) →
  well_parsed program →
  read_row ord states symbol fields i stateIndex program = Next program' →
  well_parsed program'.
Proof.
  intros Hord. revert i stateIndex program.
  induction fields as [|f fields IH]; intros i stateIndex program Hwp.
  { by intros [= <-]. }
  simpl. case_bool_decide; [by apply IH|].
  destruct (ParseTransition (ord i) f) as [t|e] eqn:Hp; [|done].
  destruct (states !! stateIndex) as [st|]; [|done].
  apply IH. intros q row. destruct (decide (q = st)) as [->|Hne].
  - rewrite lookup_insert_eq. intros [= <-]. split; [apply insert_non_empty|].
    intros sym t'. destruct (decide (sym = symbol)) as [->|Hsym].
    + rewrite lookup_insert_eq. intros [= <-].
      eapply ParseTransition_parsed; [apply Hord|exact Hp].
    + rewrite lookup_insert_ne by done.
      destruct (program !! st) as [row|] eqn:Hrow; simpl; [|by rewrite lookup_empty].
      by apply (Hwp st row).
  - rewrite lookup_insert_ne by done. apply Hwp.
Qed.

Lemma read_lines_well_parsed ord ctx k lines states inScope program program' :
  ranges_table ord →
  well_parsed program →
  read_lines ord ctx k lines states inScope program = Next program' →
  well_parsed program'.
Proof.
  intros Hord. revert k states inScope program.
  induction lines as [|line lines IH]; intros k states inScope program Hwp.
  { by intros [= <-]. }
  simpl. destruct (ctx k); [done|].
  destruct (Split line "009") as [|f0 fields1]; [by apply IH|].
  destruct inScope; simpl.
  - case_bool_decide; [by apply IH|].
    destruct (read_row _ _ _ _ _ _ _) as [p1| |] eqn:Hrow; [|done..].
    apply IH. eapply read_row_well_parsed; [|exact Hwp|exact Hrow].
    intros j sd Hin. by rewrite <- (Hord k j).
  - destruct (_ && _); by apply IH.
Qed.

Lemma valid_move_not_rejected tp a term t :
  valid_move t → Validate_entry tp a term t ≠ Some ErrInvalidMoveDirection.
Proof.
  intros Hv. unfold Validate_entry, valid_move in *.
  repeat case_bool_decide; simpl; try done; try (exfalso; tauto).
  all: by destruct (tp !! NextState t).
Qed.

(** X13: A program returned by [ReadCtx] is not empty and has no empty row;
    each of its transitions moves Left, Right or Stay, never writes the
    underscore, and leads to a state named "Q" followed by a non-empty
    suffix. So [NewMachine] never rejects a program that was read for its
    move directions. *)
Theorem ReadCtx_returns_well_parsed_program ord ctx text p :
  ranges_table ord →
  ReadCtx ord ctx text = Some (Ok p) →
  p ≠ ∅ ∧ well_parsed p ∧
  ∀ order alph start term mtl ms (h : gmap positive (gmap Z Z)) e h1,
    ranges_over p order →
    NewMachine order alph start term p mtl ms h = (Err e, h1) →
    e ≠ ErrInvalidMoveDirection.
Proof.
  intros Hord. unfold ReadCtx.
  destruct (scan (raw_lines text)) as [lines scanErr].
  destruct (read_lines ord ctx 0 lines [] false ∅) as [p'|r|] eqn:Hread; [| |done].
  2:{ intros [= ->].
      by destruct (read_lines_Return _ _ _ _ _ _ _ _ Hread) as [? | [? _]]. }
  destruct scanErr; [done|]. case_bool_decide as Hsize; [done|].
  intros [= <-].
  assert (well_parsed p') as Hwp.
  { eapply read_lines_well_parsed; [exact Hord| |exact Hread].
    intros q row Hq. by rewrite lookup_empty in Hq. }
  split; [|split; [exact Hwp|]].
  - intros ->. by rewrite map_size_empty in Hsize.
  - intros order alph start term mtl ms h e h1 Hr. unfold NewMachine.
    repeat case_bool_decide; try (by intros [= <- <-]).
    destruct (Validate _ _ _ _) as [e'|] eqn:Hv; [|done]. intros [= <- <-].
    destruct (Validate_Some _ _ _ _ _ Hr Hv) as (q & sym & t & (row & Hq & Ht) & He).
    intros ->. apply (valid_move_not_rejected _ _ _ _ (proj1 (proj2 (Hwp q row Hq) sym t Ht)) He).
Qed.

Lemma ReadCtx_returns_well_parsed_program_witness :
  ({[ "Q1"%string := {[ rune_of "1" := mkTransition "Q1" Right (rune_of "1") ]} ]}
     : gmap string (gmap Z Transition)) ≠ ∅.
Proof.
  refine (proj1 (ReadCtx_returns_well_parsed_program (λ _ _, directionTable)
    Background (tab +:+ "Q1" +:+ nl +:+ "1" +:+ tab +:+ "1>1" +:+ nl) _ _ _)).
  - by intros k i.
  - vm_compute. reflexivity.
Defined.

(** ** When the row loop stays inside the header list *)

Lemma read_row_fits ord states symbol fields i stateIndex program :
  (stateIndex + length fields ≤ length states)%nat →
  read_row ord states symbol fields i stateIndex program ≠ Panic.
Proof.
  revert i stateIndex program.
  induction fields as [|f fields IH]; intros i stateIndex program Hfit; [done|].
  simpl in *. case_bool_decide; [apply IH; lia|].
  destruct (ParseTransition (ord i) f); [|done].
  destruct (states !! stateIndex) eqn:Hst; [apply IH; lia|].
  apply lookup_ge_None in Hst. lia.
Qed.

Lemma read_lines_fits ord ctx k lines states inScope program :
  rows_fit lines inScope (length states) = true →
  read_lines ord ctx k lines states inScope program ≠ Panic.
Proof.
  revert k states inScope program.
  induction lines as [|line lines IH]; intros k states inScope program Hfit; [done|].
  simpl in *. destruct (ctx k); [done|]. unfold is_header in Hfit.
  destruct (Split line "009") as [|f0 fields1] eqn:Hs.
  - destruct inScope; simpl in *; by apply IH.
  - destruct inScope; simpl in *.
    + apply andb_prop in Hfit as [Hw Hfit]. apply Nat.leb_le in Hw.
      case_bool_decide; [by apply IH|].
      pose proof (read_row_fits (ord k) states (utf8.DecodeRuneInString f0).1
                    fields1 1 0 program ltac:(simpl; lia)) as Hrow.
      destruct (read_row _ _ _ _ _ _ _); [by apply IH|done|done].
    + destruct (_ && _).
      * apply IH. by rewrite Nat.sub_0_r in Hfit.
      * by apply IH.
Qed.

(** X14: [ReadCtx] returns a program or an error, and does not panic, on every
    text in which no line after the header row has more tab-separated
    fields than the header row. *)
Theorem ReadCtx_returns_when_rows_fit ord ctx text :
  rows_fit (scan (raw_lines text)).1 false 0 = true →
  is_Some (ReadCtx ord ctx text).
Proof.
  intros Hfit. unfold ReadCtx.
  destruct (scan (raw_lines text)) as [lines scanErr]. simpl in Hfit.
  pose proof (read_lines_fits ord ctx 0 lines [] false ∅ Hfit) as Hno.
  destruct (read_lines ord ctx 0 lines [] false ∅); [|eauto|done].
  destruct scanErr; [eauto|]. case_bool_decide; eauto.
Qed.

Lemma ReadCtx_returns_when_rows_fit_witness :
  is_Some (ReadCtx (λ _ _, directionTable) Background text_dot_symbol).
Proof.
  apply ReadCtx_returns_when_rows_fit. vm_compute. reflexivity.
Defined.

(** X15: The row loop panics exactly when some non-empty field stands at or
    past the end of the header list while that field and all the
    non-empty fields before it parse: a field that does not parse ends
    the read with an error first, and empty fields never index the
    list. *)
Theorem read_row_panics_iff ord states symbol fields i stateIndex program :
  read_row ord states symbol fields i stateIndex program = Panic ↔
  ∃ j f,
    fields !! j = Some f ∧ f ≠ EmptyString ∧
    (length states ≤ stateIndex + j)%nat ∧
    ∀ j' f', (j' ≤ j)%nat → fields !! j' = Some f' → f' ≠ EmptyString →
      ∃ t, ParseTransition (ord (i + j')%nat) f' = Ok t.
Proof.
  revert i stateIndex program.
  induction fields as [|f fields IH]; intros i stateIndex program.
  { split; [done|]. by intros (j & f & Hj & _). }
  cbn [read_row]. case_bool_decide as Hf.
  - rewrite IH. split.
    + intros (j & f' & Hj & Hne & Hlen & Hall). exists (S j), f'.
      split; [done|]; split; [done|]; split; [lia|].
      intros [|j'] f'' Hle Hj' Hne'; simpl in Hj'; [congruence|].
      replace (i + S j')%nat with (S i + j')%nat by lia. apply Hall; [lia|done..].
    + intros ([|j] & f' & Hj & Hne & Hlen & Hall); simpl in Hj; [congruence|].
      exists j, f'. split; [done|]; split; [done|]; split; [lia|].
      intros j' f'' Hle Hj' Hne'.
      replace (S i + j')%nat with (i + S j')%nat by lia. apply Hall; [lia|done..].
  - destruct (ParseTransition (ord i) f) as [t|e] eqn:Hp.
    + destruct (states !! stateIndex) as [st|] eqn:Hst.
      * rewrite IH. split.
        -- intros (j & f' & Hj & Hne & Hlen & Hall). exists (S j), f'.
           split; [done|]; split; [done|]; split; [lia|].
           intros [|j'] f'' Hle Hj' Hne'; simpl in Hj'.
           ++ injection Hj' as <-. rewrite Nat.add_0_r. eauto.
           ++ replace (i + S j')%nat with (S i + j')%nat by lia.
              apply Hall; [lia|done..].
        -- intros ([|j] & f' & Hj & Hne & Hlen & Hall); simpl in Hj.
           ++ apply lookup_lt_Some in Hst. lia.
           ++ exists j, f'. split; [done|]; split; [done|]; split; [lia|].
              intros j' f'' Hle Hj' Hne'.
              replace (S i + j')%nat with (i + S j')%nat by lia.
              apply Hall; [lia|done..].
      * split; [intros _|done]. exists 0%nat, f.
        apply lookup_ge_None in Hst.
        split; [done|]; split; [done|]; split; [lia|].
        intros [|j'] f'' Hle Hj' Hne'; [|lia]. simpl in Hj'. injection Hj' as <-.
        rewrite Nat.add_0_r. eauto.
    + split; [done|]. intros (j & f' & Hj & Hne & Hlen & Hall).
      destruct (Hall 0%nat f ltac:(lia) eq_refl Hf) as [t Ht].
      rewrite Nat.add_0_r in Ht. congruence.
Qed.

(** ** What a row stores *)

Lemma read_row_other_symbols ord states symbol fields i stateIndex program program' :
  read_row ord states symbol fields i stateIndex program = Next program' →
  ∀ q sym, sym ≠ symbol →
    default ∅ (program' !! q) !! sym = default ∅ (program !! q) !! sym.
Proof.
  revert i stateIndex program.
  induction fields as [|f fields IH]; intros i stateIndex program.
  { by intros [= <-]. }
  simpl. case_bool_decide; [apply IH|].
  destruct (ParseTransition (ord i) f) as [t|]; [|done].
  destruct (states !! stateIndex) as [st|]; [|done].
  intros Hrow q sym Hsym. rewrite (IH _ _ _ Hrow q sym Hsym).
  destruct (decide (q = st)) as [->|Hne].
  - rewrite lookup_insert_eq. simpl. by rewrite lookup_insert_ne.
  - by rewrite lookup_insert_ne.
Qed.

Lemma read_row_other_states ord states symbol fields i stateIndex program program' st :
  read_row ord states symbol fields i stateIndex program = Next program' →
  (∀ j, (stateIndex ≤ j)%nat → states !! j ≠ Some st) →
  program' !! st = program !! st.
Proof.
  revert i stateIndex program.
  induction fields as [|f fields IH]; intros i stateIndex program.
  { by intros [= <-]. }
  simpl. case_bool_decide.
  { intros Hrow Hno. apply (IH _ _ _ Hrow). intros j Hj. apply Hno. lia. }
  destruct (ParseTransition (ord i) f) as [t|]; [|done].
  destruct (states !! stateIndex) as [st'|] eqn:Hst; [|done].
  intros Hrow Hno. rewrite (IH _ _ _ Hrow) by (intros j Hj; apply Hno; lia).
  rewrite lookup_insert_ne; [done|]. intros ->. by apply (Hno stateIndex).
Qed.

(** X16: The fields of a row are taken by position: when the header row names
    each state once and the row is read to its end, the non-empty field
    at position [j] parses and its transition is what the program then
    holds for the [j]-th state of the header row and the symbol of the
    row. What the program holds for any other symbol is left as it was,
    and so are the rows of the states that the row does not reach. *)
Theorem read_row_stores_by_position
    ord states symbol fields i stateIndex program program' :
  NoDup states →
  read_row ord states symbol fields i stateIndex program = Next program' →
  (∀ j f st,
     fields !! j = Some f → f ≠ EmptyString →
     states !! (stateIndex + j)%nat = Some st →
     ∃ t row,
       ParseTransition (ord (i + j)%nat) f = Ok t ∧
       program' !! st = Some row ∧ row !! symbol = Some t) ∧
  (∀ q sym, sym ≠ symbol →
     default ∅ (program' !! q) !! sym = default ∅ (program !! q) !! sym) ∧
  (∀ st, (∀ j, (stateIndex ≤ j)%nat → states !! j ≠ Some st) →
     program' !! st = program !! st).
Proof.
  intros Hnd Hrow. split; [|split].
  2:{ by eapply read_row_other_symbols. }
  2:{ intros st. by eapply read_row_other_states. }
  revert i stateIndex program Hrow.
  induction fields as [|f fields IH]; intros i stateIndex program; [done|].
  cbn [read_row]. case_bool_decide as Hf.
  - intros Hrow [|j] f' st Hj Hne Hst; simpl in Hj; [congruence|].
    replace (i + S j)%nat with (S i + j)%nat by lia.
    apply (IH _ _ _ Hrow j f' st Hj Hne).
    by replace (S stateIndex + j)%nat with (stateIndex + S j)%nat by lia.
  - destruct (ParseTransition (ord i) f) as [t|] eqn:Hp; [|done].
    destruct (states !! stateIndex) as [st0|] eqn:Hst0; [|done].
    intros Hrow [|j] f' st Hj Hne Hst; simpl in Hj.
    + injection Hj as <-. rewrite Nat.add_0_r in *.
      assert (st = st0) as -> by congruence.
      exists t, (<[ symbol := t ]> (default ∅ (program !! st0))).
      split; [done|]. split; [|apply lookup_insert_eq].
      rewrite (read_row_other_states _ _ _ _ _ _ _ _ st0 Hrow).
      * apply lookup_insert_eq.
      * intros j Hj Hst'. pose proof (NoDup_lookup _ _ _ _ Hnd Hst0 Hst'). lia.
    + replace (i + S j)%nat with (S i + j)%nat by lia.
      apply (IH _ _ _ Hrow j f' st Hj Hne).
      by replace (S stateIndex + j)%nat with (stateIndex + S j)%nat by lia.
Qed.

Lemma read_row_stores_by_position_witness :
  ∃ t row,
    ParseTransition directionTable "1<2" = Ok t ∧
    ({[ "Q2"%string := {[ rune_of "a" := mkTransition "Q2" Left (rune_of "1") ]} ]}
       : gmap string (gmap Z Transition)) !! "Q2"%string = Some row ∧
    row !! rune_of "a" = Some t.
Proof.
  refine (proj1 (read_row_stores_by_position (λ _, directionTable)
    ["Q1"%string; "Q2"%string] (rune_of "a") [""%string; "1<2"%string] 1 0 ∅
    {[ "Q2"%string := {[ rune_of "a" := mkTransition "Q2" Left (rune_of "1") ]} ]}
    _ _) 1%nat "1<2"%string "Q2"%string eq_refl _ eq_refl).
  - apply (bool_decide_unpack _). vm_compute. exact I.
  - vm_compute. reflexivity.
  - done.
Defined.

(* ===================================================================== *)
(** * The other machines of the tests *)
(* ===================================================================== *)

Lemma Exec_settled_check test fuel0 fuel m
    (h : gmap positive (gmap Z Z)) c input t :
  deref h input = t →
  run_check m c t fuel0 test = true →
  (fuel0 ≤ fuel)%nat →
  ∃ r m' h',
    Exec fuel m h c input = Some ((Some r, None), m', h') ∧
    test (deref h' r) = true.
Proof.
  intros Hin Hcheck Hfuel. unfold run_check in Hcheck.
  destruct (exec_loop fuel0 Background 0 (reset m c 1) {[ 1%positive := t ]})
    as [[[[[res|] [e|]] out] h1]|] eqn:Hrun; try done.
  eexists _, _, _.
  erewrite (Exec_settled fuel0); [|exact Hin|exact Hrun|exact Hfuel].
  split; [reflexivity|]. by rewrite deref_insert_eq.
Qed.

Lemma ones_and_blanks_with_true n t :
  ones_and_blanks_with n t = true → ones_and_blanks t ∧ count_ones t = n.
Proof.
  unfold ones_and_blanks_with. intros Hb. apply andb_prop in Hb as [H1 H2].
  by apply bool_decide_eq_true in H1, H2.
Qed.

(** X17: The addition machine of the tests (alphabet "1+", start Q1, terminal
    Q0, tape limit 100, step limit 100): run from the leftmost one on i
    ones, the sign '+' and j ones, for i and j from 1 to 9, it halts and
    returns a tape of ones and blanks with i+j-1 ones, the unary sum as
    the test reads it. *)
Theorem addition_machine_adds order (h0 : gmap positive (gmap Z Z)) :
  ranges_over addition order →
  ∃ m h1,
    NewMachine order "1+" "Q1" "Q0" addition 100 100 h0 = (Ok m, h1) ∧
    ∀ (i j : nat) fuel (h : gmap positive (gmap Z Z)) input,
      (1 ≤ i ≤ 9)%nat → (1 ≤ j ≤ 9)%nat →
      deref h input = addition_input i j → (100 ≤ fuel)%nat →
      ∃ r m' h',
        Exec fuel m h (- Z.of_nat i) input = Some ((Some r, None), m', h') ∧
        (ones_and_blanks (deref h' r) ∧ count_ones (deref h' r) = (i + j - 1)%nat).
Proof.
  intros Hr. eexists _, _. split.
  { apply NewMachine_Ok_any_order; [done..|]. vm_compute. reflexivity. }
  intros i j fuel h input Hi Hj Hin Hfuel.
  assert (forallb (λ i : nat, forallb (λ j : nat,
            run_check
              (mkMachine 0 1 "" "Q1" "Q0" ({[ blank ]} ∪ list_to_set (runes "1+"))
                 addition 0 100 100)
              (- Z.of_nat i) (addition_input i j) 100
              (ones_and_blanks_with (i + j - 1))) (seq 1 9)) (seq 1 9) = true)
    as Hall by (vm_compute; reflexivity).
  rewrite forallb_forall in Hall.
  pose proof (Hall i ltac:(apply in_seq; lia)) as Hi'.
  rewrite forallb_forall in Hi'.
  pose proof (Hi' j ltac:(apply in_seq; lia)) as Hij.
  destruct (Exec_settled_check _ 100 fuel
              (mkMachine 0 (alloc h0) "" "Q1" "Q0"
                 ({[ blank ]} ∪ list_to_set (runes "1+")) addition 0 100 100)
              h (- Z.of_nat i) input _ Hin Hij Hfuel) as (r & m' & h' & Hrun & Ht).
  exists r, m', h'. split; [exact Hrun|]. by apply ones_and_blanks_with_true.
Qed.

Lemma addition_machine_adds_witness :
  ranges_over addition (range_order addition) ∧
  ∃ m h1,
    NewMachine (range_order addition) "1+" "Q1" "Q0" addition 100 100 ∅ = (Ok m, h1) ∧
    ∃ r m' h',
      Exec 100 m (<[ 2%positive := addition_input 2 3 ]> h1) (- Z.of_nat 2) 2%positive
        = Some ((Some r, None), m', h') ∧
      (ones_and_blanks (deref h' r) ∧ count_ones (deref h' r) = (2 + 3 - 1)%nat).
Proof.
  split; [apply range_order_ranges_over|].
  destruct (addition_machine_adds (range_order addition) ∅
              (range_order_ranges_over addition)) as (m & h1 & Hnew & Hrun).
  exists m, h1. split; [exact Hnew|].
  apply (Hrun 2%nat 3%nat); [lia|lia|apply deref_insert_eq|lia].
Defined.

(** X18: The multiplication machine of the tests (alphabet "1*", start Q1,
    terminal Q0, tape limit 1000, step limit 1000): run from carriage 0
    on n+1 ones at the cells 0..n, for n from 0 to 9, it halts and
    returns a tape of ones and blanks with 3n+1 ones, the unary triple
    as the test reads it. *)
Theorem multiplication_machine_triples order (h0 : gmap positive (gmap Z Z)) :
  ranges_over multiplication order →
  ∃ m h1,
    NewMachine order "1*" "Q1" "Q0" multiplication 1000 1000 h0 = (Ok m, h1) ∧
    ∀ (n : nat) fuel (h : gmap positive (gmap Z Z)) input,
      (n ≤ 9)%nat → deref h input = ones 0 (S n) → (1000 ≤ fuel)%nat →
      ∃ r m' h',
        Exec fuel m h 0 input = Some ((Some r, None), m', h') ∧
        (ones_and_blanks (deref h' r) ∧ count_ones (deref h' r) = (3 * n + 1)%nat).
Proof.
  intros Hr. eexists _, _. split.
  { apply NewMachine_Ok_any_order; [done..|]. vm_compute. reflexivity. }
  intros n fuel h input Hn Hin Hfuel.
  assert (forallb (λ n : nat,
            run_check
              (mkMachine 0 1 "" "Q1" "Q0" ({[ blank ]} ∪ list_to_set (runes "1*"))
                 multiplication 0 1000 1000)
              0 (ones 0 (S n)) 1000
              (ones_and_blanks_with (3 * n + 1))) (seq 0 10) = true)
    as Hall by (vm_compute; reflexivity).
  rewrite forallb_forall in Hall.
  pose proof (Hall n ltac:(apply in_seq; lia)) as Hn'.
  destruct (Exec_settled_check _ 1000 fuel
              (mkMachine 0 (alloc h0) "" "Q1" "Q0"
                 ({[ blank ]} ∪ list_to_set (runes "1*")) multiplication 0 1000 1000)
              h 0 input _ Hin Hn' Hfuel) as (r & m' & h' & Hrun & Ht).
  exists r, m', h'. split; [exact Hrun|]. by apply ones_and_blanks_with_true.
Qed.

Lemma multiplication_machine_triples_witness :
  ranges_over multiplication (range_order multiplication) ∧
  ∃ m h1,
    NewMachine (range_order multiplication) "1*" "Q1" "Q0" multiplication 1000 1000 ∅
      = (Ok m, h1) ∧
    ∃ r m' h',
      Exec 1000 m (<[ 2%positive := ones 0 3 ]> h1) 0 2%positive
        = Some ((Some r, None), m', h') ∧
      (ones_and_blanks (deref h' r) ∧ count_ones (deref h' r) = (3 * 2 + 1)%nat).
Proof.
  split; [apply range_order_ranges_over|].
  destruct (multiplication_machine_triples (range_order multiplication) ∅
              (range_order_ranges_over multiplication)) as (m & h1 & Hnew & Hrun).
  exists m, h1. split; [exact Hnew|].
  apply (Hrun 2%nat); [lia|apply deref_insert_eq|lia].
Defined.
